(** * translate-hook: the translation resolver, its loader and its caches

    A shallow embedding of the TypeScript sources

    - [translate-util]       : template compiler, [tryGetTranslate],
                               [isDifferentTranslateData];
    - [translate-implement]  : the class [I18nTranslateImplement];
    - [translate-hook] (signal store, inline and modular versions):
                               [translateFn], the loader, the handle caches;
    - the two singleton registries.

    JavaScript objects that are used as dictionaries are finite maps over
    their own properties; objects that the code compares by identity or
    mutates in place live in a heap and are named by a reference. *)

From Stdlib Require Import String Ascii List Arith ZArith Lia Bool.
From stdpp Require Import base option list strings gmap pretty.

Open Scope string_scope.

(* ===================================================================== *)
(** * JavaScript values passed as translation arguments *)
(* ===================================================================== *)

Module Js.

(** The rest parameter [...values: any[]].  The resolver observes an
    argument only through [=== null], [=== undefined] and [String(v)];
    any value that is not one of the primitives below is kept as
    [JsObject], carrying the text [String(v)] yields.  (The handle cache
    also serializes argument arrays; the serializer is a parameter
    there.) *)
Inductive JsValue : Type :=
| JsUndefined
| JsNull
| JsBoolean (b : bool)
| JsInt (n : Z)
| JsString (s : string)
| JsObject (toString : string).

(** [String(value)] *)
Definition String_ (v : JsValue) : string :=
  match v with
  | JsUndefined => "undefined"
  | JsNull => "null"
  | JsBoolean true => "true"
  | JsBoolean false => "false"
  | JsInt n => pretty n
  | JsString s => s
  | JsObject t => t
  end.

(** [value !== null && value !== undefined] *)
Definition not_nullish (v : JsValue) : bool :=
  match v with
  | JsUndefined | JsNull => false
  | _ => true
  end.

(** Truthiness of a string: only the empty string is falsy. *)
Definition truthy_string (s : string) : bool :=
  negb (String.eqb s "").

(** [template.slice(start, end)] for [0 <= start], code units
    [start .. end-1] (empty when [end <= start]). *)
Definition slice (s : string) (start end_ : nat) : string :=
  String.substring start (end_ - start) s.

(** [template.slice(start)] *)
Definition slice_from (s : string) (start : nat) : string :=
  String.substring start (String.length s - start) s.

(** [Array.prototype.reduce] with the callback's index argument. *)
Fixpoint reduce_from {A B : Type} (f : B -> A -> nat -> B)
         (l : list A) (index : nat) (prev : B) : B :=
  match l with
  | [] => prev
  | current :: rest => reduce_from f rest (S index) (f prev current index)
  end.

Definition reduce {A B : Type} (f : B -> A -> nat -> B)
           (l : list A) (init : B) : B :=
  reduce_from f l 0 init.

(** Decimal value of a string of digits. *)
Definition digit_value (c : ascii) : N := (N_of_ascii c - 48)%N.

Fixpoint decimal_from (s : string) (acc : N) : N :=
  match s with
  | EmptyString => acc
  | String c s' => decimal_from s' (acc * 10 + digit_value c)%N
  end.

(** The class [\d]: the characters [0] to [9]. *)
Definition is_digit (c : ascii) : bool :=
  Nat.leb 48 (nat_of_ascii c) && Nat.leb (nat_of_ascii c) 57.

Fixpoint all_digits (s : string) : bool :=
  match s with
  | EmptyString => true
  | String c s' => is_digit c && all_digits s'
  end.

(** A property name addresses an array element only when it is the
    canonical decimal spelling of the index: ["0"], or digits that do
    not start with ["0"].  ["01"] and ["undefined"] name no element. *)
Definition array_index (name : string) : option nat :=
  match name with
  | EmptyString => None
  | String c rest =>
      if negb (all_digits name) then None
      else if Ascii.eqb c "0" && negb (String.eqb rest "") then None
      else Some (N.to_nat (decimal_from name 0))
  end.

(** [values[name]] for a property name ([None] is the name
    [undefined], which no array carries). *)
Definition array_get (values : list JsValue) (name : option string) : JsValue :=
  match name with
  | None => JsUndefined
  | Some p =>
      match array_index p with
      | Some i => default JsUndefined (values !! i)
      | None => JsUndefined
      end
  end.

End Js.
Export Js.

(* ===================================================================== *)
(** * Template compiler ([compileTemplateFunction], [taggedTemplate]) *)
(* ===================================================================== *)

Module Template.

(** Greedy [\d+] / [\d*]: the longest run of digits and what follows. *)
Fixpoint take_digits (s : string) : string * string :=
  match s with
  | EmptyString => ("", "")
  | String c s' =>
      if is_digit c
      then let '(ds, rest) := take_digits s' in (String c ds, rest)
      else ("", s)
  end.

(** The pattern [\{\{(\d+)\}\}] anchored at the head of [s]; the result
    is the capture group.  A shorter run of digits can never be followed
    by a closing brace, so trying the longest run decides the match. *)
Definition match_here (s : string) : option string :=
  match s with
  | String "{" (String "{" s1) =>
      match take_digits s1 with
      | (String d ds, String "}" (String "}" _)) => Some (String d ds)
      | _ => None
      end
  | _ => None
  end.

(** One call of the replacer: [(match, paramIndex, offset)]. *)
Record RegexMatch : Type := {
  match_text : string;
  paramIndex : string;
  offset : nat
}.

(** All matches of the global pattern, left to right and without
    overlap; [skip] counts the characters still covered by the previous
    match. *)
Fixpoint regex_matches_from (s : string) (pos skip : nat) : list RegexMatch :=
  match s with
  | EmptyString => []
  | String _ s' =>
      match skip with
      | S k => regex_matches_from s' (S pos) k
      | O =>
          match match_here s with
          | Some ds =>
              {| match_text := "{{" +:+ ds +:+ "}}"; paramIndex := ds; offset := pos |}
                :: regex_matches_from s' (S pos) (String.length ds + 3)
          | None => regex_matches_from s' (S pos) 0
          end
      end
  end.

Definition regex_matches (template : string) : list RegexMatch :=
  regex_matches_from template 0 0.

(** The closure returned by [compileTemplateFunction] captures
    [segments] and [placeholders].  The replacer receives the capture
    group as a string and pushes it as it is, so a placeholder is the
    text of its digits. *)
Record TemplateFn : Type := {
  segments : list string;
  placeholders : list string
}.

(** State of the replacer's three captured variables. *)
Record CompileState : Type := {
  cs_segments : list string;
  cs_placeholders : list string;
  lastIndex : nat
}.

Definition replacer (template : string) (st : CompileState) (m : RegexMatch)
  : CompileState :=
  {| cs_segments := cs_segments st ++ [slice template (lastIndex st) (offset m)];
     cs_placeholders := cs_placeholders st ++ [paramIndex m];
     lastIndex := offset m + String.length (match_text m) |}.

Definition compileTemplateFunction (template : string) : TemplateFn :=
  let st :=
    fold_left (replacer template) (regex_matches template)
              {| cs_segments := []; cs_placeholders := []; lastIndex := 0 |} in
  {| segments := cs_segments st ++ [slice_from template (lastIndex st)];
     placeholders := cs_placeholders st |}.

(** [value !== null && value !== undefined ? String(value)
                                           : (idx ? `{{${idx}}}` : '')]
    where [idx = placeholders[index]] is the captured text, and
    [undefined] ([None]) for the last segment, which has no placeholder.
    A captured text is a non-empty string, so it is truthy. *)
Definition interpolated (values : list JsValue) (idx : option string) : string :=
  let value := array_get values idx in
  if not_nullish value then String_ value
  else match idx with
       | Some p => if truthy_string p then "{{" +:+ p +:+ "}}" else ""
       | None => ""
       end.

Definition taggedTemplate (segs : list string) (phs : list string)
           (values : list JsValue) : string :=
  reduce (fun prev current index =>
            prev +:+ current +:+ interpolated values (phs !! index))
         segs "".

(** Calling the compiled function. *)
Definition call (fn : TemplateFn) (values : list JsValue) : string :=
  taggedTemplate (segments fn) (placeholders fn) values.

(** Compile, then render. *)
Definition render (template : string) (values : list JsValue) : string :=
  call (compileTemplateFunction template) values.

End Template.
Export Template.

(* ===================================================================== *)
(** * Bundles, the heap of bundle objects, [translate-util] *)
(* ===================================================================== *)

Module Bundle.

(** [TranslationValue = string | TranslationTemplateFn]; a bundle
    parsed from JSON may also hold numbers, booleans, null, arrays or
    nested objects, which are neither: [TOther]. *)
Inductive TranslationValue : Type :=
| TString (template : string)
| TFunction (fn : TemplateFn)
| TOther.

(** A bundle object ([TranslationData]) is named by a reference; the
    heap gives the own properties of each object.  A [Map<string,
    TranslationData>] maps a language code to a reference. *)
Abbreviation ObjRef := nat.

Abbreviation TranslationData := (gmap string TranslationValue).
Abbreviation Heap := (gmap nat (gmap string TranslationValue)).
Abbreviation LanguageMap := (gmap string nat).

(** The object literal [{}]: a new object without properties. *)
Definition new_object (heap : Heap) : ObjRef * Heap :=
  let r := fresh (dom heap) in (r, <[r := ∅]> heap).

(** [Object.keys(a).length] *)
Definition keys_length (heap : Heap) (a : ObjRef) : nat :=
  size (heap !!! a).

(** [isDifferentTranslateData(a?, b?)]; [None] is an absent (or null)
    argument, [===] on objects is identity of references. *)
Definition isDifferentTranslateData (heap : Heap) (a b : option ObjRef) : bool :=
  match a, b with
  | Some a, Some b =>
      if Nat.eqb a b then false
      else if negb (Nat.eqb (keys_length heap a) (keys_length heap b)) then true
      else false
  | _, _ => true
  end.

(** [tryGetTranslate(key, lang, values, store)]: [None] is [null].  A
    string entry is compiled and the compiled function is written back
    into the bundle object. *)
Definition tryGetTranslate (key lang : string) (values : list JsValue)
           (store : LanguageMap) (heap : Heap) : option string * Heap :=
  match store !! lang with
  | None => (None, heap)
  | Some translations =>
      match (heap !!! translations) !! key with
      | Some (TString temp) =>
          let compiled := compileTemplateFunction temp in
          (Some (call compiled values),
           <[translations := <[key := TFunction compiled]> (heap !!! translations)]> heap)
      | Some (TFunction temp) => (Some (call temp values), heap)
      | _ => (Some key, heap)
      end
  end.

(** What an entry renders to; [None] for an entry that is neither a
    string nor a function. *)
Definition rendering (entry : TranslationValue) (values : list JsValue)
  : option string :=
  match entry with
  | TString template => Some (render template values)
  | TFunction fn => Some (call fn values)
  | TOther => None
  end.

(** The entry of [key] in the bundle loaded for [lang], if any. *)
Definition entry (store : LanguageMap) (heap : Heap) (lang key : string)
  : option TranslationValue :=
  match store !! lang with
  | Some translations => (heap !!! translations) !! key
  | None => None
  end.

(** What [key] renders to in the bundle loaded for [lang]: [None]
    when the bundle is not loaded, the key is not in it, or its entry is
    neither a string nor a function. *)
Definition lookup_rendering (store : LanguageMap) (heap : Heap) (lang key : string)
           (values : list JsValue) : option string :=
  entry store heap lang key ≫= (fun e => rendering e values).

End Bundle.
Export Bundle.

(* ===================================================================== *)
(** * Observables that emit once: the request pipeline *)
(* ===================================================================== *)

Module Rx.

(** What [httpClient.get] reports as an error. *)
Record HttpErrorResponse : Type := {
  status : nat;
  statusText : string
}.

(** Outcome of a one-shot observable: a value, or an error
    notification. *)
Inductive Emission (A : Type) : Type :=
| Next (value : A)
| Error (error : HttpErrorResponse).
Arguments Next {A} value.
Arguments Error {A} error.

(** [map(project)] *)
Definition map_ {A B : Type} (project : A -> B) (source : Emission A) : Emission B :=
  match source with
  | Next value => Next (project value)
  | Error error => Error error
  end.

(** [shareReplay(1)] keeps and replays the source's notification. *)
Definition shareReplay {A : Type} (source : Emission A) : Emission A := source.

(** [catchError(selector)] where the selector returns [of(x)]; building
    [x] may allocate, so the selector runs on the heap. *)
Definition catchError {A S : Type} (selector : HttpErrorResponse -> S -> A * S)
           (source : Emission A) (s : S) : Emission A * S :=
  match source with
  | Next value => (Next value, s)
  | Error error => let '(x, s') := selector error s in (Next x, s')
  end.

(** [TranslationLoadResponse]; [data] is [None] when the body is
    [null]. *)
Record TranslationLoadResponse : Type := {
  lang : string;
  data : option ObjRef
}.

(** [error => of({ lang, data: {} })] *)
Definition empty_bundle_on_error (lang : string) (error : HttpErrorResponse)
           (heap : Heap) : TranslationLoadResponse * Heap :=
  let '(r, heap') := new_object heap in
  ({| lang := lang; data := Some r |}, heap').

End Rx.
Export Rx.

(* ===================================================================== *)
(** * The signal store ([initInstanceI18n] of [translate-hook]) *)
(* ===================================================================== *)

Module SignalStore.

(** A request object: [httpClient.get(url).pipe(...)], built for one
    language.  Its identity is [request_id]. *)
Record Request : Type := {
  request_id : nat;
  request_lang : string;
  request_url : string
}.

(** What the instance does to the outside, in order. *)
Inductive Effect : Type :=
| Subscribed (request : nat)
| CallbackRun (fn : nat)
| Warned (message : string)
| Unhandled (error : HttpErrorResponse).

(** The signals and caches closed over by [initInstanceI18n], the heap
    of bundle objects, the request objects built so far and the log of
    effects. *)
Record I18nState : Type := {
  storeLanguage : gmap string nat;
  currentLanguage : string;
  supportedLanguages : list string;
  loadingStates : gmap string bool;
  languageChangedCallbacks : list nat;
  fallbackLanguage : string;
  assetResourceUrl : string;
  translationRequestCache : gmap string nat;
  heap : gmap nat (gmap string TranslationValue);
  requests : list Request;
  log : list Effect
}.

Definition with_storeLanguage (m : gmap string nat) (st : I18nState) : I18nState :=
  {| storeLanguage := m; currentLanguage := currentLanguage st;
     supportedLanguages := supportedLanguages st; loadingStates := loadingStates st;
     languageChangedCallbacks := languageChangedCallbacks st;
     fallbackLanguage := fallbackLanguage st; assetResourceUrl := assetResourceUrl st;
     translationRequestCache := translationRequestCache st; heap := heap st;
     requests := requests st; log := log st |}.

Definition with_currentLanguage (l : string) (st : I18nState) : I18nState :=
  {| storeLanguage := storeLanguage st; currentLanguage := l;
     supportedLanguages := supportedLanguages st; loadingStates := loadingStates st;
     languageChangedCallbacks := languageChangedCallbacks st;
     fallbackLanguage := fallbackLanguage st; assetResourceUrl := assetResourceUrl st;
     translationRequestCache := translationRequestCache st; heap := heap st;
     requests := requests st; log := log st |}.

Definition with_loadingStates (m : gmap string bool) (st : I18nState) : I18nState :=
  {| storeLanguage := storeLanguage st; currentLanguage := currentLanguage st;
     supportedLanguages := supportedLanguages st; loadingStates := m;
     languageChangedCallbacks := languageChangedCallbacks st;
     fallbackLanguage := fallbackLanguage st; assetResourceUrl := assetResourceUrl st;
     translationRequestCache := translationRequestCache st; heap := heap st;
     requests := requests st; log := log st |}.

Definition with_heap (h : gmap nat (gmap string TranslationValue)) (st : I18nState)
  : I18nState :=
  {| storeLanguage := storeLanguage st; currentLanguage := currentLanguage st;
     supportedLanguages := supportedLanguages st; loadingStates := loadingStates st;
     languageChangedCallbacks := languageChangedCallbacks st;
     fallbackLanguage := fallbackLanguage st; assetResourceUrl := assetResourceUrl st;
     translationRequestCache := translationRequestCache st; heap := h;
     requests := requests st; log := log st |}.

Definition with_request (lang : string) (r : Request) (st : I18nState) : I18nState :=
  {| storeLanguage := storeLanguage st; currentLanguage := currentLanguage st;
     supportedLanguages := supportedLanguages st; loadingStates := loadingStates st;
     languageChangedCallbacks := languageChangedCallbacks st;
     fallbackLanguage := fallbackLanguage st; assetResourceUrl := assetResourceUrl st;
     translationRequestCache := <[lang := request_id r]> (translationRequestCache st);
     heap := heap st;
     requests := requests st ++ [r]; log := log st |}.

Definition with_effects (es : list Effect) (st : I18nState) : I18nState :=
  {| storeLanguage := storeLanguage st; currentLanguage := currentLanguage st;
     supportedLanguages := supportedLanguages st; loadingStates := loadingStates st;
     languageChangedCallbacks := languageChangedCallbacks st;
     fallbackLanguage := fallbackLanguage st; assetResourceUrl := assetResourceUrl st;
     translationRequestCache := translationRequestCache st; heap := heap st;
     requests := requests st; log := log st ++ es |}.

(** ** Resolution *)

Definition resolveTranslation (key lang : string) (values : list JsValue)
           (translations : gmap string nat)
           (heap : gmap nat (gmap string TranslationValue))
  : string * gmap nat (gmap string TranslationValue) :=
  match translations !! lang with
  | None => (key, heap)
  | Some _ =>
      let '(r, heap') := tryGetTranslate key lang values translations heap in
      (default key r, heap')
  end.

(** The function held by the computed [translateFn]. *)
Definition translateFn (currentLang fallbackLang : string)
           (translations : gmap string nat)
           (key : string) (values : list JsValue)
           (heap : gmap nat (gmap string TranslationValue))
  : string * gmap nat (gmap string TranslationValue) :=
  let '(result, heap1) := resolveTranslation key currentLang values translations heap in
  if String.eqb result key && truthy_string fallbackLang
     && negb (String.eqb fallbackLang currentLang)
  then resolveTranslation key fallbackLang values translations heap1
  else (result, heap1).

(** [instance.get(key, ...values)] *)
Definition get (key : string) (values : list JsValue) (st : I18nState)
  : string * I18nState :=
  let '(result, heap') :=
    translateFn (currentLanguage st) (fallbackLanguage st) (storeLanguage st)
                key values (heap st) in
  (result, with_heap heap' st).

(** ** Loading *)

Definition setLoadingState (lang : string) (loading : bool) (st : I18nState)
  : I18nState :=
  with_loadingStates (<[lang := loading]> (loadingStates st)) st.

(** Every registered callback runs, in registration order; a callback
    that throws is caught and logged. *)
Definition triggerLanguageChangedCallbacks (st : I18nState) : I18nState :=
  with_effects (CallbackRun <$> languageChangedCallbacks st) st.

Definition handleTranslationResponse (response : TranslationLoadResponse)
           (st : I18nState) : I18nState :=
  let currentTranslations := storeLanguage st in
  let existingData := currentTranslations !! lang response in
  if isDifferentTranslateData (heap st) existingData (data response)
     && bool_decide (is_Some (data response))
  then
    match data response with
    | Some d =>
        triggerLanguageChangedCallbacks
          (with_storeLanguage (<[lang response := d]> currentTranslations) st)
    | None => st
    end
  else st.

Definition request_url_of (st : I18nState) (lang : string) : string :=
  assetResourceUrl st +:+ "/" +:+ lang +:+ ".json".

Definition getOrCreateTranslationRequest (lang : string) (st : I18nState)
  : nat * I18nState :=
  match translationRequestCache st !! lang with
  | Some request => (request, st)
  | None =>
      let request :=
        {| request_id := length (requests st); request_lang := lang;
           request_url := request_url_of st lang |} in
      (request_id request, with_request lang request st)
  end.

Definition loadLanguageResource (lang : string) (st : I18nState) : I18nState :=
  if bool_decide (is_Some (storeLanguage st !! lang)) then st
  else if bool_decide (loadingStates st !! lang = Some true) then st
  else
    let st1 := setLoadingState lang true st in
    let '(request, st2) := getOrCreateTranslationRequest lang st1 in
    with_effects [Subscribed request] st2.

(** What the request object of [lang] emits for an outcome of the HTTP
    call: [map], [shareReplay(1)], [catchError]. *)
Definition request_emission (lang : string) (outcome : Emission (option ObjRef))
           (heap : gmap nat (gmap string TranslationValue))
  : Emission TranslationLoadResponse * gmap nat (gmap string TranslationValue) :=
  catchError (empty_bundle_on_error lang)
             (shareReplay (map_ (fun d => {| lang := lang; data := d |}) outcome))
             heap.

(** The subscriber of [loadLanguageResource]. *)
Definition on_result (lang : string) (result : TranslationLoadResponse)
           (st : I18nState) : I18nState :=
  setLoadingState lang false (handleTranslationResponse result st).

(** The subscription of [loadLanguageResource] receives the outcome of
    the HTTP call: the request's pipeline, the second [catchError], then
    the subscriber; an error that reached [subscribe] would be
    unhandled. *)
Definition deliver (lang : string) (outcome : Emission (option ObjRef))
           (st : I18nState) : I18nState :=
  let '(e1, heap1) := request_emission lang outcome (heap st) in
  let '(e2, heap2) := catchError (empty_bundle_on_error lang) e1 heap1 in
  match e2 with
  | Next result => on_result lang result (with_heap heap2 st)
  | Error error => with_effects [Unhandled error] (with_heap heap2 st)
  end.

(** [instance.setLanguage(lang)] *)
Definition setLanguage (lang : string) (st : I18nState) : I18nState :=
  if negb (bool_decide (lang ∈ supportedLanguages st))
  then with_effects [Warned ("[I18n] Unsupported language: '" +:+ lang +:+ "'")] st
  else if String.eqb (currentLanguage st) lang then st
  else with_currentLanguage lang st.

(** The effect that loads the current language. *)
Definition autoLoadEffect (st : I18nState) : I18nState :=
  let lang := currentLanguage st in
  if truthy_string lang then loadLanguageResource lang st else st.

(** What can happen to an instance, in any order. *)
Inductive Event : Type :=
| LanguageSet (lang : string)
| EffectRun
| LoadAttempt (lang : string)
| HttpOutcome (lang : string) (outcome : Emission (option ObjRef))
| Got (key : string) (values : list JsValue).

Definition step (st : I18nState) (ev : Event) : I18nState :=
  match ev with
  | LanguageSet lang => setLanguage lang st
  | EffectRun => autoLoadEffect st
  | LoadAttempt lang => loadLanguageResource lang st
  | HttpOutcome lang outcome => deliver lang outcome st
  | Got key values => snd (get key values st)
  end.

Definition run (events : list Event) (st : I18nState) : I18nState :=
  fold_left step events st.

(** The instance right after [initializeConfig]: nothing loaded, no
    request built. *)
Definition initial (currentLang fallbackLang assetsUrl : string)
           (supported : list string) : I18nState :=
  {| storeLanguage := ∅; currentLanguage := currentLang;
     supportedLanguages := supported; loadingStates := ∅;
     languageChangedCallbacks := []; fallbackLanguage := fallbackLang;
     assetResourceUrl := assetsUrl; translationRequestCache := ∅;
     heap := ∅; requests := []; log := [] |}.



End SignalStore.

(* ===================================================================== *)
(** * The class [I18nTranslateImplement] *)
(* ===================================================================== *)

Module Implement.

(** The private fields the resolver and the loader use.  The private
    methods [#compileTemplateFunction], [#taggedTemplate] and
    [#isDifferentTranslateData] repeat the text of [translate-util]. *)
Record I18nTranslateImplement : Type := {
  storeLanguage : gmap string nat;
  languagesSupported : list string;
  fallbackLanguage : string;
  assetsUrl : string;
  currentLanguage : string;
  translationRequests : gmap string nat;
  heap : gmap nat (gmap string TranslationValue);
  built : list (nat * string)
}.

Definition with_heap (h : gmap nat (gmap string TranslationValue))
           (this : I18nTranslateImplement) : I18nTranslateImplement :=
  {| storeLanguage := storeLanguage this; languagesSupported := languagesSupported this;
     fallbackLanguage := fallbackLanguage this; assetsUrl := assetsUrl this;
     currentLanguage := currentLanguage this;
     translationRequests := translationRequests this; heap := h;
     built := built this |}.

Definition getTranslateData (this : I18nTranslateImplement) (lang : string)
  : option nat :=
  storeLanguage this !! lang.

(** [#tryGetTranslate(key, lang, values)]; [None] is [null]. *)
Definition tryGetTranslate (key lang : string) (values : list JsValue)
           (this : I18nTranslateImplement)
  : option string * I18nTranslateImplement :=
  match getTranslateData this lang with
  | None => (None, this)
  | Some translations =>
      match (heap this !!! translations) !! key with
      | Some (TString temp) =>
          let compiled := compileTemplateFunction temp in
          (Some (call compiled values),
           with_heap (<[translations := <[key := TFunction compiled]>
                                           (heap this !!! translations)]> (heap this))
                     this)
      | Some (TFunction temp) => (Some (call temp values), this)
      | _ => (Some key, this)
      end
  end.

(** [!translates]: [null] and the empty string are falsy. *)
Definition falsy (translates : option string) : bool :=
  match translates with
  | None => true
  | Some s => negb (truthy_string s)
  end.

(** [#getTranslationText(key, currentLang, values)] *)
Definition getTranslationText (key currentLang : string) (values : list JsValue)
           (this : I18nTranslateImplement) : string * I18nTranslateImplement :=
  let '(translates, this1) := tryGetTranslate key currentLang values this in
  if falsy translates && truthy_string (fallbackLanguage this1)
     && negb (String.eqb (fallbackLanguage this1) currentLang)
  then
    let '(translates', this2) :=
      tryGetTranslate key (fallbackLanguage this1) values this1 in
    (default key translates', this2)
  else (default key translates, this1).

(** [get(key, ...values)] *)
Definition get (key : string) (values : list JsValue)
           (this : I18nTranslateImplement) : string * I18nTranslateImplement :=
  getTranslationText key (currentLanguage this) values this.






End Implement.

(* ===================================================================== *)
(** * Reactive handles: [createTranslationCache] and the uncached getters *)
(* ===================================================================== *)

Module Handles.

(** A [computed(() => translateFn()(key, values))]: a new object each
    time [computed] is called; [signal_id] is its identity. *)
Record SignalHandle : Type := {
  signal_id : nat;
  signal_key : string;
  signal_values : list JsValue
}.

(** A [toObservable(signal).pipe(...)]: again a new object. *)
Record ObservableHandle : Type := {
  observable_id : nat;
  observable_source : SignalHandle
}.

Section TranslationCache.

(** [JSON.stringify] on argument arrays. *)
Variable JSON_stringify : list JsValue -> string.

(** The two maps of [createTranslationCache]; [constructed] counts
    the reactive objects built so far and names the next one. *)
Record TranslationCache : Type := {
  signalCache : gmap string SignalHandle;
  observableCache : gmap string ObservableHandle;
  constructed : nat
}.

Definition getCacheKey (key : string) (values : list JsValue) : string :=
  if Nat.ltb 0 (length values)
  then key +:+ ":" +:+ JSON_stringify values
  else key.

Definition getCachedSignal (key : string) (values : list JsValue)
           (c : TranslationCache) : SignalHandle * TranslationCache :=
  let cacheKey := getCacheKey key values in
  match signalCache c !! cacheKey with
  | Some signal => (signal, c)
  | None =>
      let signal :=
        {| signal_id := constructed c; signal_key := key; signal_values := values |} in
      (signal,
       {| signalCache := <[cacheKey := signal]> (signalCache c);
          observableCache := observableCache c;
          constructed := S (constructed c) |})
  end.

Definition getCachedObservable (key : string) (values : list JsValue)
           (c : TranslationCache) : ObservableHandle * TranslationCache :=
  let cacheKey := getCacheKey key values in
  match observableCache c !! cacheKey with
  | Some observable => (observable, c)
  | None =>
      let '(signal, c1) := getCachedSignal key values c in
      let observable :=
        {| observable_id := constructed c1; observable_source := signal |} in
      (observable,
       {| signalCache := signalCache c1;
          observableCache := <[cacheKey := observable]> (observableCache c1);
          constructed := S (constructed c1) |})
  end.

Definition invalidateCache (c : TranslationCache) : TranslationCache :=
  {| signalCache := ∅; observableCache := ∅; constructed := constructed c |}.

End TranslationCache.


Definition get_dollar (key : string) (values : list JsValue) (built : nat)
  : ObservableHandle * nat :=
  let signal := {| signal_id := built; signal_key := key; signal_values := values |} in
  ({| observable_id := S built; observable_source := signal |}, S (S built)).

End Handles.

(* ===================================================================== *)
(** * The singleton registries *)
(* ===================================================================== *)

Module Registry.

(** A call returns a value or throws an [Error] with a message. *)
Inductive Outcome (A : Type) : Type :=
| Returns (value : A)
| Throws (message : string).
Arguments Returns {A} value.
Arguments Throws {A} message.

(** [I18nConfig]: only the presence of the injector is observed. *)
Record I18nConfig : Type := {
  injector : option nat;
  assetsUrl : string;
  defaultLanguage : option string;
  fallbackLanguage : option string;
  languageSupported : list string
}.

(** ** Class registry: [initializeI18nWithCustom], [useI18nTranslate] *)

(** A class that extends [I18nTranslate]: its identity, the classes it
    inherits from, and what its own constructor does after [super(config)]
    ([Some message]: it throws). *)
Record ImplementationClass : Type := {
  class_id : nat;
  superclasses : list nat;
  constructor_body : I18nConfig -> option string
}.

Record Instance : Type := {
  instance_id : nat;
  instance_class : ImplementationClass;
  instance_config : I18nConfig
}.

(** [instance instanceof Class] *)
Definition instanceof (instance : Instance) (cls : ImplementationClass) : bool :=
  Nat.eqb (class_id (instance_class instance)) (class_id cls)
  || existsb (Nat.eqb (class_id cls)) (superclasses (instance_class instance)).

(** The two module-level variables, the number of instances
    constructed so far, and the console. *)
Record ClassRegistry : Type := {
  translateInstance : option Instance;
  isInitialized : bool;
  instances_constructed : nat;
  console : list string
}.

Definition class_registry_start : ClassRegistry :=
  {| translateInstance := None; isInitialized := false;
     instances_constructed := 0; console := [] |}.

(** [new ImplementationClass(config)]: the constructor of the base
    class throws without an injector. *)
Definition construct (cls : ImplementationClass) (config : I18nConfig) (n : nat)
  : Outcome Instance :=
  match injector config with
  | None => Throws "Injector not provider"
  | Some _ =>
      match constructor_body cls config with
      | Some message => Throws message
      | None =>
          Returns {| instance_id := n; instance_class := cls; instance_config := config |}
      end
  end.

Definition initializeI18nWithCustom (cls : ImplementationClass) (config : I18nConfig)
           (reg : ClassRegistry) : Outcome Instance * ClassRegistry :=
  if isInitialized reg then
    let reg' :=
      {| translateInstance := translateInstance reg; isInitialized := isInitialized reg;
         instances_constructed := instances_constructed reg;
         console := console reg ++ ["[I18n] Already initialized"] |} in
    match translateInstance reg with
    | Some instance =>
        if instanceof instance cls then (Returns instance, reg')
        else (Throws "[I18n] Cannot reinitialize with different implementation type", reg')
    | None =>
        (Throws "[I18n] Cannot reinitialize with different implementation type", reg')
    end
  else
    match construct cls config (instances_constructed reg) with
    | Throws message => (Throws message, reg)
    | Returns instance =>
        (Returns instance,
         {| translateInstance := Some instance; isInitialized := true;
            instances_constructed := S (instances_constructed reg);
            console := console reg |})
    end.

Definition useI18nTranslate (reg : ClassRegistry) : Outcome Instance :=
  match isInitialized reg, translateInstance reg with
  | true, Some instance => Returns instance
  | _, _ => Throws "[I18n] Must call initializeI18n() first"
  end.

Definition resetI18n (reg : ClassRegistry) : ClassRegistry :=
  {| translateInstance := None; isInitialized := false;
     instances_constructed := instances_constructed reg; console := console reg |}.

(** ** Injector registry: [initializeI18n], [getInstanceI18n] *)

(** An Angular injector: what [inject] finds in it. *)
Record Injector : Type := {
  provides_HttpClient : bool;
  provides_LocalStorageService : bool
}.

(** [I18nLanguageConfigure] *)
Record I18nLanguageConfigure : Type := {
  configure_injector : option Injector;
  translationConfig : option I18nConfig
}.

Record StoreInstance : Type := {
  store_id : nat;
  store_configure : I18nLanguageConfigure
}.

Record GlobalManager : Type := {
  instanceI18nGlobal : option StoreInstance;
  isInitializedFlag : bool;
  stores_constructed : nat;
  warnings : list string
}.

Definition global_manager_start : GlobalManager :=
  {| instanceI18nGlobal := None; isInitializedFlag := false;
     stores_constructed := 0; warnings := [] |}.

(** [initInstanceI18n(configure)]: [inject] throws when the injector
    lacks a provider. *)
Definition initInstanceI18n (configure : I18nLanguageConfigure) (n : nat)
  : Outcome StoreInstance :=
  match configure_injector configure with
  | Some inj =>
      if provides_HttpClient inj && provides_LocalStorageService inj
      then Returns {| store_id := n; store_configure := configure |}
      else Throws "NullInjectorError"
  | None => Throws "NullInjectorError"
  end.

Definition initializeI18n (configure : I18nLanguageConfigure) (g : GlobalManager)
  : Outcome (option StoreInstance) * GlobalManager :=
  match configure_injector configure with
  | None => (Throws "[I18n] Missing Angular injector in configuration", g)
  | Some _ =>
      if isInitializedFlag g then
        let g' :=
          {| instanceI18nGlobal := instanceI18nGlobal g;
             isInitializedFlag := isInitializedFlag g;
             stores_constructed := stores_constructed g;
             warnings := warnings g
                         ++ ["[I18n] Already initialized, returning existing instance"] |} in
        (Returns (instanceI18nGlobal g), g')
      else
        match initInstanceI18n configure (stores_constructed g) with
        | Returns instance =>
            (Returns (Some instance),
             {| instanceI18nGlobal := Some instance; isInitializedFlag := true;
                stores_constructed := S (stores_constructed g);
                warnings := warnings g |})
        | Throws message =>
            (Throws message,
             {| instanceI18nGlobal := None; isInitializedFlag := false;
                stores_constructed := stores_constructed g;
                warnings := warnings g |})
        end
  end.


End Registry.

(* ===================================================================== *)
(** * Concrete bundles used in the examples *)
(* ===================================================================== *)

Module Scenario.

(** Languages [vi] and [en] are loaded; the bundle objects are 0 and 1. *)
Definition two_languages : gmap string nat :=
  <["vi" := 0]> (<["en" := 1]> ∅).

(** [vi.json = {}], [en.json = {"welcome": "Welcome"}]. *)
Definition empty_vi_heap : gmap nat (gmap string TranslationValue) :=
  <[0 := ∅]> (<[1 := <["welcome" := TString "Welcome"]> ∅]> ∅).


(** [vi.json = {"title": ""}], [en.json = {"title": "Title"}]. *)
Definition blank_heap : gmap nat (gmap string TranslationValue) :=
  <[0 := <["title" := TString ""]> ∅]>
    (<[1 := <["title" := TString "Title"]> ∅]> ∅).

(** An [I18nTranslateImplement] whose current language is [vi] and
    whose fallback language is [en]. *)
Definition implement_vi (heap : gmap nat (gmap string TranslationValue))
  : Implement.I18nTranslateImplement :=
  {| Implement.storeLanguage := two_languages;
     Implement.languagesSupported := ["vi"; "en"];
     Implement.fallbackLanguage := "en";
     Implement.assetsUrl := "./assets/i18n";
     Implement.currentLanguage := "vi";
     Implement.translationRequests := ∅;
     Implement.heap := heap;
     Implement.built := [] |}.

(** A serializer of argument arrays for the examples: every element
    is written as its [String] text between single quotes. *)
Fixpoint stringify_elements (values : list JsValue) : string :=
  match values with
  | [] => ""
  | v :: rest =>
      String "'" (String_ v +:+ "'"
                  +:+ match rest with
                      | [] => ""
                      | _ => "," +:+ stringify_elements rest
                      end)
  end.

Definition stringify (values : list JsValue) : string :=
  String "[" (stringify_elements values +:+ "]").

(** Two unrelated classes that extend [I18nTranslate], and a
    configuration that carries an injector. *)
Definition DefaultImplementation : Registry.ImplementationClass :=
  {| Registry.class_id := 1; Registry.superclasses := [];
     Registry.constructor_body := fun _ => None |}.

Definition CustomImplementation : Registry.ImplementationClass :=
  {| Registry.class_id := 2; Registry.superclasses := [];
     Registry.constructor_body := fun _ => None |}.

Definition config_en : Registry.I18nConfig :=
  {| Registry.injector := Some 0; Registry.assetsUrl := "./assets/i18n";
     Registry.defaultLanguage := Some "en"; Registry.fallbackLanguage := Some "en";
     Registry.languageSupported := ["en"; "vi"] |}.

Definition configure_en : Registry.I18nLanguageConfigure :=
  {| Registry.configure_injector :=
       Some {| Registry.provides_HttpClient := true;
               Registry.provides_LocalStorageService := true |};
     Registry.translationConfig := Some config_en |}.

Definition configure_without_injector : Registry.I18nLanguageConfigure :=
  {| Registry.configure_injector := None; Registry.translationConfig := Some config_en |}.

End Scenario.

(* ===================================================================== *)
(** * Statements about matches and compiled entries *)
(* ===================================================================== *)

Module Laws.

(** A match moved [k] characters to the right. *)
Definition shifted (k : nat) (m : RegexMatch) : RegexMatch :=
  {| match_text := match_text m; paramIndex := paramIndex m; offset := offset m + k |}.

(** The entry of [key] in [lang] is not a string waiting to be compiled. *)
Definition compiled_at (store : gmap string nat)
           (heap : gmap nat (gmap string TranslationValue)) (lang key : string) : Prop :=
  forall template, entry store heap lang key <> Some (TString template).

End Laws.

Export Laws.

(* ===================================================================== *)
(** * The signal store: configuration, persistence and callbacks *)
(* ===================================================================== *)

Module SignalLifecycle.

Import SignalStore.

(** The signal [languageChangedCallbacks] set to a new set. *)
Definition with_callbacks (fns : list nat) (st : I18nState) : I18nState :=
  {| storeLanguage := storeLanguage st; currentLanguage := currentLanguage st;
     supportedLanguages := supportedLanguages st; loadingStates := loadingStates st;
     languageChangedCallbacks := fns;
     fallbackLanguage := fallbackLanguage st;
     assetResourceUrl := assetResourceUrl st;
     translationRequestCache := translationRequestCache st; heap := heap st;
     requests := requests st; log := log st |}.

(** [I18nTranslationConfig]; an optional field that is left out is
    [None]. *)
Record I18nTranslationConfig : Type := {
  assetsUrl : string;
  defaultLanguage : option string;
  fallbackLanguage : option string;
  languageSupported : list string
}.

Definition CSP_I18N_STORAGE_LANG : string := "csp-lang".

Definition CSP_LANGUAGE_CONFIG : I18nTranslationConfig :=
  {| assetsUrl := "./assets/i18n"; defaultLanguage := Some "en";
     fallbackLanguage := Some "en"; languageSupported := ["en"; "vi"] |}.

(** Modelled from the spec: the persistence collaborator
    ([LocalStorageService], not in the sources) is a key-value store of
    plain strings with [get(key) -> string | null] and [set(key, value)]. *)
Definition getData (storage : gmap string string) (key : string) : option string :=
  storage !! key.

Definition storeData (key value : string) (storage : gmap string string)
  : gmap string string :=
  <[key := value]> storage.

(** [a || b] where [a] may be [null], [undefined] or the empty string. *)
Definition or_else (a : option string) (b : string) : string :=
  match a with
  | Some s => if truthy_string s then s else b
  | None => b
  end.

(** [initializeConfig(configure)]: the signals right after it ran. *)
Definition initializeConfig (configure : I18nTranslationConfig)
           (storage : gmap string string) : I18nState :=
  let savedLang := getData storage CSP_I18N_STORAGE_LANG in
  let defaultLanguage := or_else savedLang (or_else (defaultLanguage configure) "en") in
  let supportedLangs :=
    if Nat.ltb 0 (length (languageSupported configure))
    then languageSupported configure
    else [defaultLanguage] in
  let finalDefaultLang :=
    if bool_decide (defaultLanguage ∈ supportedLangs)
    then defaultLanguage
    else default "" (supportedLangs !! 0) in
  initial finalDefaultLang
          (default finalDefaultLang (fallbackLanguage configure))
          (assetsUrl configure)
          supportedLangs.

(** The effect that saves the current language. *)
Definition autoSaveEffect (st : I18nState) (storage : gmap string string)
  : gmap string string :=
  let lang := currentLanguage st in
  if truthy_string lang then storeData CSP_I18N_STORAGE_LANG lang storage else storage.

(** [Set.prototype.add] and [delete] on a set kept in insertion order. *)
Definition set_add (fn : nat) (fns : list nat) : list nat :=
  if bool_decide (fn ∈ fns) then fns else fns ++ [fn].

Definition set_delete (fn : nat) (fns : list nat) : list nat :=
  filter (fun g => g <> fn) fns.

(** [instance.onChangedLanguage(fn)], and the [RevokeFn] it returns. *)
Definition onChangedLanguage (fn : nat) (st : I18nState) : I18nState :=
  with_callbacks (set_add fn (languageChangedCallbacks st)) st.

Definition revoke (fn : nat) (st : I18nState) : I18nState :=
  with_callbacks (set_delete fn (languageChangedCallbacks st)) st.

(** How often [fn] ran according to a log. *)
Definition is_run_of (fn : nat) (e : Effect) : bool :=
  match e with
  | CallbackRun g => Nat.eqb g fn
  | _ => false
  end.

Definition runs_of (fn : nat) (effects : list Effect) : nat :=
  length (filter (fun e => is_run_of fn e = true) effects).

End SignalLifecycle.

(* ===================================================================== *)
(** * [I18nTranslateImplement]: languages and disposal *)
(* ===================================================================== *)

Module ImplementLanguages.

Import Implement.

(** An instance together with the storage it writes to (modelled from
    the spec, as [SignalLifecycle.storeData]) and the console. *)
Record Session : Type := {
  this : I18nTranslateImplement;
  storage : gmap string string;
  console : list string
}.

(** [I18nTranslate.I18N_STORAGE_KEY] *)
Definition I18N_STORAGE_KEY : string := "csp-lang".

Definition with_currentLanguage (lang : string) (t : I18nTranslateImplement)
  : I18nTranslateImplement :=
  {| storeLanguage := storeLanguage t; languagesSupported := languagesSupported t;
     fallbackLanguage := fallbackLanguage t; assetsUrl := assetsUrl t;
     currentLanguage := lang;
     translationRequests := translationRequests t; heap := heap t; built := built t |}.

Definition with_languagesSupported (langs : list string) (t : I18nTranslateImplement)
  : I18nTranslateImplement :=
  {| storeLanguage := storeLanguage t; languagesSupported := langs;
     fallbackLanguage := fallbackLanguage t; assetsUrl := assetsUrl t;
     currentLanguage := currentLanguage t;
     translationRequests := translationRequests t; heap := heap t; built := built t |}.

(** [setLanguage(lang)] *)
Definition setLanguage (lang : string) (s : Session) : Session :=
  if negb (bool_decide (lang ∈ languagesSupported (this s)))
  then {| this := this s; storage := storage s;
          console := console s ++ ["Unsupported language: '" +:+ lang +:+ "'."] |}
  else if negb (String.eqb (currentLanguage (this s)) lang)
       then {| this := with_currentLanguage lang (this s);
               storage := SignalLifecycle.storeData I18N_STORAGE_KEY lang (storage s);
               console := console s |}
       else s.

(** [setLanguageSupport(langs)] *)
Definition setLanguageSupport (langs : list string) (s : Session) : Session :=
  if negb (Nat.ltb 0 (length langs))
  then {| this := this s; storage := storage s;
          console := console s ++ ["No supported languages provided"] |}
  else {| this := with_languagesSupported langs (this s);
          storage := storage s; console := console s |}.

(** [getLanguageSupport()] and [getCurrentLang()] *)
Definition getLanguageSupport (s : Session) : list string := languagesSupported (this s).

Definition getCurrentLang (s : Session) : string := currentLanguage (this s).


End ImplementLanguages.

(* ===================================================================== *)
(** * The translation cache: invalidation and use over time *)
(* ===================================================================== *)

Module CacheMaintenance.

Import Handles.

(** [Array.from(signalCache.keys()).filter(cacheKey =>
    cacheKey.startsWith(key))] *)
Definition keysToDelete (key : string) (c : TranslationCache) : list string :=
  filter (fun cacheKey => String.prefix key cacheKey = true)
         (elements (dom (signalCache c))).

(** [invalidateKey(key)]: each of these keys is deleted from both maps. *)
Definition invalidateKey (key : string) (c : TranslationCache) : TranslationCache :=
  {| signalCache := foldr delete (signalCache c) (keysToDelete key c);
     observableCache := foldr delete (observableCache c) (keysToDelete key c);
     constructed := constructed c |}.

(** [getCacheStats()] *)
Definition getCacheStats (c : TranslationCache) : nat * nat :=
  (size (signalCache c), size (observableCache c)).

(** The cache [createTranslationCache()] starts with. *)
Definition empty_cache : TranslationCache :=
  {| signalCache := ∅; observableCache := ∅; constructed := 0 |}.

(** What the instance does with its cache. *)
Inductive CacheOp : Type :=
| GetSignal (key : string) (values : list JsValue)
| GetObservable (key : string) (values : list JsValue)
| InvalidateCache
| InvalidateKey (key : string).

Definition apply_op (JSON_stringify : list JsValue -> string)
           (c : TranslationCache) (op : CacheOp) : TranslationCache :=
  match op with
  | GetSignal key values => snd (getCachedSignal JSON_stringify key values c)
  | GetObservable key values => snd (getCachedObservable JSON_stringify key values c)
  | InvalidateCache => invalidateCache c
  | InvalidateKey key => invalidateKey key c
  end.

Definition run_ops (JSON_stringify : list JsValue -> string)
           (ops : list CacheOp) (c : TranslationCache) : TranslationCache :=
  fold_left (apply_op JSON_stringify) ops c.

(** What holds of every cache the operations can produce: an observable
    is cached only under a key that has a cached signal; every cached
    object was built before [constructed]; different keys hold different
    objects. *)
Record well_formed (c : TranslationCache) : Prop := {
  observables_have_signals :
    forall k, is_Some (observableCache c !! k) -> is_Some (signalCache c !! k);
  signals_are_built :
    forall k h, signalCache c !! k = Some h -> signal_id h < constructed c;
  observables_are_built :
    forall k o, observableCache c !! k = Some o -> observable_id o < constructed c;
  signals_are_distinct :
    forall k1 k2 h1 h2,
      signalCache c !! k1 = Some h1 -> signalCache c !! k2 = Some h2 ->
      signal_id h1 = signal_id h2 -> k1 = k2;
  observables_are_distinct :
    forall k1 k2 o1 o2,
      observableCache c !! k1 = Some o1 -> observableCache c !! k2 = Some o2 ->
      observable_id o1 = observable_id o2 -> k1 = k2
}.

End CacheMaintenance.

(* ===================================================================== *)
(** * The LRU cache of handles ([createLRUCache]) *)
(* ===================================================================== *)

Module LRU.

Import Handles.

(** A value of the map: [{ signal, lastUsed }]. *)
Record Entry : Type := {
  signal : SignalHandle;
  lastUsed : nat
}.

(** A [Map<string, Entry>] keeps its keys in the order they were first
    set: an association list with one pair for each key. *)
Fixpoint map_get (k : string) (m : list (string * Entry)) : option Entry :=
  match m with
  | [] => None
  | (k', e) :: rest => if String.eqb k' k then Some e else map_get k rest
  end.

(** [Map.prototype.set]: a present key keeps its place. *)
Fixpoint map_set (k : string) (e : Entry) (m : list (string * Entry))
  : list (string * Entry) :=
  match m with
  | [] => [(k, e)]
  | (k', e') :: rest =>
      if String.eqb k' k then (k', e) :: rest else (k', e') :: map_set k e rest
  end.

Definition map_delete (k : string) (m : list (string * Entry)) : list (string * Entry) :=
  filter (fun p => fst p <> k) m.

(** The map and the number of handles built so far. *)
Record LRUCache : Type := {
  cache : list (string * Entry);
  built : nat
}.

(** [lastUsed < oldestTime], where [None] is [Infinity]. *)
Definition older_than (t : nat) (oldestTime : option nat) : bool :=
  match oldestTime with
  | None => true
  | Some t' => Nat.ltb t t'
  end.

(** The loop of [evictOldest]: the state is [(oldestKey, oldestTime)]. *)
Definition oldest_step (st : string * option nat) (p : string * Entry)
  : string * option nat :=
  if older_than (lastUsed (snd p)) (snd st) then (fst p, Some (lastUsed (snd p))) else st.

Definition evictOldest (m : list (string * Entry)) : list (string * Entry) :=
  let oldestKey := fst (fold_left oldest_step m ("", None)) in
  if truthy_string oldestKey then map_delete oldestKey m else m.

Section WithParameters.

(** [JSON.stringify] on argument arrays, and the [maxSize] of the
    cache. *)
Variable JSON_stringify : list JsValue -> string.
Variable maxSize : nat.

Definition getCacheKey (key : string) (values : list JsValue) : string :=
  if Nat.ltb 0 (length values)
  then key +:+ ":" +:+ JSON_stringify values
  else key.

(** [getCachedSignal(key, values, translateFn)]; [now] is what
    [Date.now()] returns. *)
Definition getCachedSignal (key : string) (values : list JsValue) (now : nat)
           (c : LRUCache) : SignalHandle * LRUCache :=
  let cacheKey := getCacheKey key values in
  match map_get cacheKey (cache c) with
  | Some cached =>
      (signal cached,
       {| cache := map_set cacheKey {| signal := signal cached; lastUsed := now |} (cache c);
          built := built c |})
  | None =>
      let cache1 :=
        if Nat.leb maxSize (length (cache c)) then evictOldest (cache c) else cache c in
      let handle :=
        {| signal_id := built c; signal_key := key; signal_values := values |} in
      (handle,
       {| cache := map_set cacheKey {| signal := handle; lastUsed := now |} cache1;
          built := S (built c) |})
  end.

Definition clearCache (c : LRUCache) : LRUCache :=
  {| cache := []; built := built c |}.

Definition getCacheSize (c : LRUCache) : nat := length (cache c).

(** A sequence of calls [(key, values, now)] on the cache. *)
Definition run_calls (calls : list (string * list JsValue * nat)) (c : LRUCache)
  : LRUCache :=
  fold_left (fun c '(key, values, now) => snd (getCachedSignal key values now c)) calls c.

End WithParameters.

Definition empty : LRUCache := {| cache := []; built := 0 |}.

(** What the bound rests on: one pair for each key, no empty cache key,
    at most [maxSize] entries. *)
Definition within_bound (maxSize : nat) (c : LRUCache) : Prop :=
  NoDup (cache c).*1 /\ ("" ∉ (cache c).*1) /\ length (cache c) <= maxSize.

End LRU.

(* ===================================================================== *)
(** * The registries over time, and the per-class registry of
      [translate-hook] *)
(* ===================================================================== *)

Module RegistryRuns.

Import Registry.

(** A sequence of calls of [initializeI18nWithCustom]. *)
Definition run_class_registry (calls : list (ImplementationClass * I18nConfig))
           (reg : ClassRegistry) : ClassRegistry :=
  fold_left (fun reg '(cls, config) => snd (initializeI18nWithCustom cls config reg))
            calls reg.

(** A sequence of calls of [initializeI18n]. *)
Definition run_global_manager (calls : list I18nLanguageConfigure) (g : GlobalManager)
  : GlobalManager :=
  fold_left (fun g configure => snd (initializeI18n configure g)) calls g.

(** [I18nUtils.safeGet()]: [None] is [null]. *)
Definition safeGet (reg : ClassRegistry) : option Instance :=
  match useI18nTranslate reg with
  | Returns instance => Some instance
  | Throws _ => None
  end.

(** [isI18nInitialized()] *)
Definition isI18nInitialized (reg : ClassRegistry) : bool := isInitialized reg.

(** What every class registry reached from the start satisfies. *)
Definition class_registry_ok (reg : ClassRegistry) : Prop :=
  match translateInstance reg with
  | Some instance =>
      isInitialized reg = true /\ instances_constructed reg = 1 /\ instance_id instance = 0
  | None => isInitialized reg = false /\ instances_constructed reg = 0
  end.

(** What every global manager reached from the start satisfies. *)
Definition global_manager_ok (g : GlobalManager) : Prop :=
  match instanceI18nGlobal g with
  | Some instance =>
      isInitializedFlag g = true /\ stores_constructed g = 1 /\ store_id instance = 0
  | None => isInitializedFlag g = false /\ stores_constructed g = 0
  end.

End RegistryRuns.

Module Hook.

Import Registry.

(** [Partial<I18nConfig>]: a property that is left out is [None]. *)
Record PartialConfig : Type := {
  partial_injector : option nat;
  partial_assetsUrl : option string;
  partial_defaultLanguage : option string;
  partial_fallbackLanguage : option string;
  partial_languageSupported : option (list string)
}.

(** [{ languageSupported: ['vi', 'en'], defaultLanguage: 'vi',
       assetsUrl: './assets/i18n', fallbackLanguage: 'en', ...config }];
    [config] itself may be left out. *)
Definition mergeConfig (config : option PartialConfig) : I18nConfig :=
  match config with
  | None =>
      {| injector := None; assetsUrl := "./assets/i18n"; defaultLanguage := Some "vi";
         fallbackLanguage := Some "en"; languageSupported := ["vi"; "en"] |}
  | Some c =>
      {| injector := partial_injector c;
         assetsUrl := default "./assets/i18n" (partial_assetsUrl c);
         defaultLanguage := Some (default "vi" (partial_defaultLanguage c));
         fallbackLanguage := Some (default "en" (partial_fallbackLanguage c));
         languageSupported := default ["vi"; "en"] (partial_languageSupported c) |}
  end.

Section WithInjectors.

(** Whether an injector provides [HttpClient] and
    [LocalStorageService]; [injector.get] throws when it does not. *)
Variable provides : nat -> bool.

(** The class [I18nTranslateImplement]: after [super(config)] its
    constructor asks the injector for the two services. *)
Definition I18nTranslateImplement_class : ImplementationClass :=
  {| class_id := 1; superclasses := [0];
     constructor_body := fun config =>
       match injector config with
       | Some inj => if provides inj then None else Some "NullInjectorError"
       | None => None
       end |}.

(** The [WeakMap] keyed by the function passed as [abstractClass], and
    the number of instances constructed so far. *)
Record HookStore : Type := {
  storeI18nTranslate : gmap nat Instance;
  hook_constructed : nat
}.

Definition hook_start : HookStore :=
  {| storeI18nTranslate := ∅; hook_constructed := 0 |}.

Definition getInstanceI18nTranslate (abstractClass : nat) (config : option PartialConfig)
           (s : HookStore) : Outcome Instance * HookStore :=
  match storeI18nTranslate s !! abstractClass with
  | Some instance => (Returns instance, s)
  | None =>
      match construct I18nTranslateImplement_class (mergeConfig config)
                      (hook_constructed s) with
      | Throws message => (Throws message, s)
      | Returns instance =>
          (Returns instance,
           {| storeI18nTranslate := <[abstractClass := instance]> (storeI18nTranslate s);
              hook_constructed := S (hook_constructed s) |})
      end
  end.

Definition run_hook (calls : list (nat * option PartialConfig)) (s : HookStore)
  : HookStore :=
  fold_left (fun s '(abstractClass, config) =>
               snd (getInstanceI18nTranslate abstractClass config s))
            calls s.

End WithInjectors.

End Hook.

(* ===================================================================== *)
(** * Properties of the template compiler *)
(* ===================================================================== *)

Example render_hello :
  render "Hello, {{0}}!" [JsString "John"] = "Hello, John!".
Proof. vm_compute. reflexivity. Qed.

Example render_two :
  render "You have {{0}} new messages and {{1}} pending tasks" [JsInt 5; JsInt 3]
  = "You have 5 new messages and 3 pending tasks".
Proof. vm_compute. reflexivity. Qed.

Example render_one_missing : render "{{1}}" [] = "{{1}}".
Proof. vm_compute. reflexivity. Qed.

Example render_zero_missing : render "{{0}}" [] = "{{0}}".
Proof. vm_compute. reflexivity. Qed.

Example render_nested_braces : render "a{{{2}}}b{{x}}{{}}" [JsNull; JsNull; JsBoolean true]
  = "a{true}b{{x}}{{}}".
Proof. vm_compute. reflexivity. Qed.

Section TemplateFacts.

Lemma length_append (s t : string) :
  String.length (s +:+ t) = String.length s + String.length t.
Proof. induction s as [|c s IH]; simpl; [reflexivity | now rewrite IH]. Qed.

Lemma substring_zero_length (n : nat) (s : string) : String.substring n 0 s = "".
Proof.
  revert n; induction s as [|c s IH]; intros [|n]; simpl; try reflexivity.
  apply IH.
Qed.

(** A closing brace is not a digit, so the greedy run stops there. *)
Lemma take_digits_before_braces (digits rest : string) :
  all_digits digits = true ->
  take_digits (digits +:+ String "}" rest) = (digits, String "}" rest).
Proof.
  induction digits as [|c ds IH]; simpl; intros H.
  - reflexivity.
  - apply andb_true_iff in H as [Hc Hds]. rewrite Hc, (IH Hds). reflexivity.
Qed.

Lemma match_here_placeholder (digits rest : string) :
  digits <> "" -> all_digits digits = true ->
  match_here ("{{" +:+ digits +:+ "}}" +:+ rest) = Some digits.
Proof.
  intros Hne Hd.
  change (match_here (String "{" (String "{" (digits +:+ String "}" (String "}" rest))))
          = Some digits).
  unfold match_here.
  rewrite (take_digits_before_braces digits (String "}" rest) Hd).
  destruct digits; [congruence | reflexivity].
Qed.

(** Characters covered by the previous match start no new match. *)
Lemma regex_matches_skipped (s : string) (pos skip : nat) :
  String.length s <= skip -> regex_matches_from s pos skip = [].
Proof.
  revert pos skip; induction s as [|c s IH]; intros pos skip H; simpl.
  - reflexivity.
  - destruct skip as [|k]; simpl in H; [lia |]. apply IH. lia.
Qed.

Lemma regex_matches_at_match (c : ascii) (s ds : string) (pos : nat) :
  match_here (String c s) = Some ds ->
  regex_matches_from (String c s) pos 0
  = {| match_text := "{{" +:+ ds +:+ "}}"; paramIndex := ds; offset := pos |}
      :: regex_matches_from s (S pos) (String.length ds + 3).
Proof. intros H. cbn [regex_matches_from]. rewrite H. reflexivity. Qed.

(** A template that is one placeholder compiles to two empty segments
    around the text of its digits. *)
Lemma compile_single_placeholder (digits : string) :
  digits <> "" -> all_digits digits = true ->
  compileTemplateFunction ("{{" +:+ digits +:+ "}}")
  = {| segments := [""; ""]; placeholders := [digits] |}.
Proof.
  intros Hne Hd.
  assert (Hm : match_here (String "{" (String "{" (digits +:+ "}}"))) = Some digits)
    by exact (match_here_placeholder digits "" Hne Hd).
  unfold compileTemplateFunction, regex_matches.
  assert (Hms : regex_matches_from ("{{" +:+ digits +:+ "}}") 0 0
                = [{| match_text := "{{" +:+ digits +:+ "}}";
                      paramIndex := digits; offset := 0 |}]).
  { change ("{{" +:+ digits +:+ "}}") with (String "{" (String "{" (digits +:+ "}}"))).
    rewrite (regex_matches_at_match _ _ _ _ Hm). f_equal.
    apply regex_matches_skipped. simpl. rewrite length_append. simpl. lia. }
  rewrite Hms. cbn [fold_left replacer cs_segments cs_placeholders lastIndex
                    offset match_text paramIndex app].
  unfold slice, slice_from. rewrite Nat.sub_diag, Nat.add_0_l, Nat.sub_diag.
  rewrite !substring_zero_length. reflexivity.
Qed.

(** The substitution made for one placeholder whose argument is
    absent. *)
Lemma interpolated_absent (values : list JsValue) (p : string) :
  p <> "" -> not_nullish (array_get values (Some p)) = false ->
  interpolated values (Some p) = "{{" +:+ p +:+ "}}".
Proof.
  intros Hne Habs. unfold interpolated. rewrite Habs.
  unfold truthy_string. destruct p; [congruence | reflexivity].
Qed.

Lemma append_empty_r (s : string) : s +:+ "" = s.
Proof.
  induction s as [|c s IH]; [reflexivity |].
  change (String c (s +:+ "") = String c s). now rewrite IH.
Qed.

End TemplateFacts.

(** C2 (as the code has it).  A placeholder whose argument is absent
    (out of range, [null] or [undefined]) is replaced by its own text,
    and this holds for every index, index 0 included: the template
    [{{i}}] rendered without its argument is the text [{{i}}]. *)
Theorem missing_argument_keeps_placeholder_text (digits : string) (values : list JsValue) :
  digits <> "" ->
  all_digits digits = true ->
  not_nullish (array_get values (Some digits)) = false ->
  interpolated values (Some digits) = "{{" +:+ digits +:+ "}}"
  /\ render ("{{" +:+ digits +:+ "}}") values = "{{" +:+ digits +:+ "}}".
Proof.
  intros Hne Hd Habs. split.
  - now apply interpolated_absent.
  - unfold render. rewrite compile_single_placeholder by assumption.
    unfold call, taggedTemplate, reduce. cbn [segments placeholders reduce_from].
    cbn [lookup list_lookup]. rewrite (interpolated_absent values digits Hne Habs).
    unfold interpolated at 1. cbn [array_get not_nullish].
    rewrite !append_empty_r. reflexivity.
Qed.

Lemma missing_argument_keeps_placeholder_text_at_zero :
  ("0" <> "" /\ all_digits "0" = true /\ not_nullish (array_get [] (Some "0")) = false)
  /\ render "{{0}}" [] = "{{0}}" /\ render "{{1}}" [] = "{{1}}".
Proof.
  split; [split; [discriminate | split; reflexivity] |].
  split.
  - exact (proj2 (missing_argument_keeps_placeholder_text "0" []
                    ltac:(discriminate) eq_refl eq_refl)).
  - exact (proj2 (missing_argument_keeps_placeholder_text "1" []
                    ltac:(discriminate) eq_refl eq_refl)).
Defined.

(** C2 as stated fails for index 0: [{{0}}] without its argument does
    not render to the empty string. *)
Lemma zero_placeholder_does_not_render_empty :
  render "{{1}}" [] = "{{1}}" /\ render "{{0}}" [] <> "".
Proof. split; [reflexivity | discriminate]. Qed.

(* ===================================================================== *)
(** * Properties of resolution *)
(* ===================================================================== *)

Section ResolutionFacts.

Implicit Types (store : gmap string nat) (heap : gmap nat (gmap string TranslationValue)).
Implicit Types (key lang : string) (values : list JsValue).

(** The value [tryGetTranslate] returns, read off the bundle. *)
Lemma tryGetTranslate_result key lang values store heap :
  fst (tryGetTranslate key lang values store heap)
  = match store !! lang with
    | None => None
    | Some _ => Some (default key (lookup_rendering store heap lang key values))
    end.
Proof.
  unfold tryGetTranslate, lookup_rendering, entry.
  destruct (store !! lang) as [r|]; [|reflexivity].
  destruct ((heap !!! r) !! key) as [[t|f|]|]; reflexivity.
Qed.

(** Writing the compiled function back changes no rendering: not for
    the key looked up, and not for any other key or language. *)
Lemma tryGetTranslate_keeps_renderings key lang values store heap lang' key' values' :
  lookup_rendering store (snd (tryGetTranslate key lang values store heap))
                   lang' key' values'
  = lookup_rendering store heap lang' key' values'.
Proof.
  unfold tryGetTranslate.
  destruct (store !! lang) as [r|]; [|reflexivity].
  destruct ((heap !!! r) !! key) as [[t|f|]|] eqn:E; try reflexivity.
  cbn [snd]. unfold lookup_rendering, entry.
  destruct (store !! lang') as [r'|]; [|reflexivity].
  destruct (decide (r' = r)) as [->|Hr].
  - rewrite lookup_total_insert_eq.
    destruct (decide (key' = key)) as [->|Hk].
    + rewrite lookup_insert_eq, E. reflexivity.
    + rewrite lookup_insert_ne by congruence. reflexivity.
  - rewrite lookup_total_insert_ne by congruence. reflexivity.
Qed.

Lemma resolveTranslation_result key lang values store heap :
  fst (SignalStore.resolveTranslation key lang values store heap)
  = default key (lookup_rendering store heap lang key values).
Proof.
  unfold SignalStore.resolveTranslation.
  pose proof (tryGetTranslate_result key lang values store heap) as H.
  destruct (store !! lang) as [r|] eqn:E.
  - destruct (tryGetTranslate key lang values store heap) as [t h].
    cbn [fst] in *. rewrite H. reflexivity.
  - unfold lookup_rendering, entry. rewrite E. reflexivity.
Qed.

Lemma resolveTranslation_keeps_renderings key lang values store heap lang' key' values' :
  lookup_rendering store (snd (SignalStore.resolveTranslation key lang values store heap))
                   lang' key' values'
  = lookup_rendering store heap lang' key' values'.
Proof.
  unfold SignalStore.resolveTranslation.
  pose proof (tryGetTranslate_keeps_renderings
                key lang values store heap lang' key' values') as H.
  destruct (store !! lang) as [r|]; [|reflexivity].
  destruct (tryGetTranslate key lang values store heap) as [t h]. exact H.
Qed.

(** [translateFn]: the current language's rendering (or the key), and
    the fallback language's when that result is the key itself. *)
Lemma translateFn_result currentLang fallbackLang store key values heap :
  fst (SignalStore.translateFn currentLang fallbackLang store key values heap)
  = let result := default key (lookup_rendering store heap currentLang key values) in
    if String.eqb result key && truthy_string fallbackLang
       && negb (String.eqb fallbackLang currentLang)
    then default key (lookup_rendering store heap fallbackLang key values)
    else result.
Proof.
  unfold SignalStore.translateFn.
  pose proof (resolveTranslation_result key currentLang values store heap) as H1.
  pose proof (resolveTranslation_keeps_renderings
                key currentLang values store heap fallbackLang key values) as H2.
  destruct (SignalStore.resolveTranslation key currentLang values store heap)
    as [result heap1].
  cbn [fst snd] in *. subst result. cbv zeta.
  destruct (_ && _ && _); [|reflexivity].
  rewrite resolveTranslation_result, H2. reflexivity.
Qed.




End ResolutionFacts.

Lemma truthy_string_nonempty (s : string) : s <> "" -> truthy_string s = true.
Proof. intros H. unfold truthy_string. now apply negb_true_iff, String.eqb_neq. Qed.

Lemma eqb_string_distinct (s t : string) : s <> t -> negb (String.eqb s t) = true.
Proof. intros H. now apply negb_true_iff, String.eqb_neq. Qed.

(** C1 at the input where the class misses it.  With [vi.json = {}] and
    [en.json = {"welcome": "Welcome"}] loaded, current language [vi] and
    fallback language [en], the key [welcome] is only in the fallback
    bundle; [I18nTranslateImplement.get] answers the key itself, because
    [#tryGetTranslate] answers the key (not [null]) for a loaded bundle
    that lacks it, while [translateFn] of the signal store answers the
    fallback bundle's rendering. *)
Theorem implement_get_skips_fallback_for_loaded_bundle :
  entry Scenario.two_languages Scenario.empty_vi_heap "vi" "welcome" = None
  /\ lookup_rendering Scenario.two_languages Scenario.empty_vi_heap "en" "welcome" []
     = Some "Welcome"
  /\ fst (Implement.get "welcome" [] (Scenario.implement_vi Scenario.empty_vi_heap))
     = "welcome"
  /\ fst (SignalStore.translateFn "vi" "en" Scenario.two_languages "welcome" []
                                  Scenario.empty_vi_heap)
     = "Welcome".
Proof. vm_compute. repeat split; reflexivity. Qed.





(** [translateFn] on a hit of the current language. *)
Lemma translateFn_on_hit
      (currentLang fallbackLang key : string) (values : list JsValue)
      (store : gmap string nat) (heap : gmap nat (gmap string TranslationValue))
      (r : string) :
  lookup_rendering store heap currentLang key values = Some r ->
  (r <> key \/ fallbackLang = "" \/ fallbackLang = currentLang ->
   fst (SignalStore.translateFn currentLang fallbackLang store key values heap) = r)
  /\ (r = key -> fallbackLang <> "" -> fallbackLang <> currentLang ->
      fst (SignalStore.translateFn currentLang fallbackLang store key values heap)
      = default key (lookup_rendering store heap fallbackLang key values)).
Proof.
  intros Hr. rewrite translateFn_result. cbv zeta. rewrite Hr. cbn [from_option id]. split.
  - intros [Hne | [-> | ->]].
    + apply String.eqb_neq in Hne. rewrite Hne. reflexivity.
    + rewrite andb_false_r. reflexivity.
    + rewrite String.eqb_refl, andb_false_r. reflexivity.
  - intros -> Hfb Hcur.
    rewrite String.eqb_refl, (truthy_string_nonempty _ Hfb), (eqb_string_distinct _ _ Hcur).
    reflexivity.
Qed.









(* ===================================================================== *)
(** * The data-changed check and the store update *)
(* ===================================================================== *)

(** C8.  [isDifferentTranslateData] answers "different" when either
    side is absent; for two bundles it answers "unchanged" when they are
    the same object, "different" when their key counts differ, and
    "unchanged" whenever the counts agree, whatever the entries are.
    When it answers "unchanged" [handleTranslationResponse] leaves the
    instance as it is: the store is not replaced and no callback runs. *)
Theorem data_changed_check_counts_keys_only
        (heap : gmap nat (gmap string TranslationValue)) :
  (forall a b : option nat,
      a = None \/ b = None -> isDifferentTranslateData heap a b = true)
  /\ (forall a : nat, isDifferentTranslateData heap (Some a) (Some a) = false)
  /\ (forall a b : nat,
        a <> b -> keys_length heap a <> keys_length heap b ->
        isDifferentTranslateData heap (Some a) (Some b) = true)
  /\ (forall a b : nat,
        keys_length heap a = keys_length heap b ->
        isDifferentTranslateData heap (Some a) (Some b) = false)
  /\ (forall (st : SignalStore.I18nState) (response : TranslationLoadResponse),
        SignalStore.heap st = heap ->
        isDifferentTranslateData heap (SignalStore.storeLanguage st !! lang response)
                                 (data response) = false ->
        SignalStore.handleTranslationResponse response st = st).
Proof.
  repeat split.
  - intros a b [-> | ->]; [reflexivity | destruct a; reflexivity].
  - intros a. unfold isDifferentTranslateData. now rewrite Nat.eqb_refl.
  - intros a b Hab Hk. unfold isDifferentTranslateData.
    apply Nat.eqb_neq in Hab, Hk. now rewrite Hab, Hk.
  - intros a b Hk. unfold isDifferentTranslateData.
    destruct (Nat.eqb a b); [reflexivity |].
    apply Nat.eqb_eq in Hk. now rewrite Hk.
  - intros st response <- H. unfold SignalStore.handleTranslationResponse.
    now rewrite H.
Qed.

Lemma data_changed_check_counts_keys_only_same_size :
  keys_length Scenario.blank_heap 0 = keys_length Scenario.blank_heap 1
  /\ Scenario.blank_heap !! 0 <> Scenario.blank_heap !! 1
  /\ isDifferentTranslateData Scenario.blank_heap (Some 0) (Some 1) = false.
Proof.
  split; [vm_compute; reflexivity |].
  split; [vm_compute; discriminate |].
  exact (proj1 (proj2 (proj2 (proj2
           (data_changed_check_counts_keys_only Scenario.blank_heap)))) 0 1
           ltac:(vm_compute; reflexivity)).
Defined.

(* ===================================================================== *)
(** * The loader: one request object for each language *)
(* ===================================================================== *)

Section LoaderFacts.

Import SignalStore.














End LoaderFacts.

Section ImplementLoaderFacts.

Import Implement.




End ImplementLoaderFacts.



(* ===================================================================== *)
(** * A failed fetch *)
(* ===================================================================== *)




(* ===================================================================== *)
(** * Reactive handles *)
(* ===================================================================== *)

Section HandleFacts.

Import Handles.

Variable JSON_stringify : list JsValue -> string.

(** Only the empty array is written as the empty array. *)
Hypothesis JSON_stringify_empty :
  forall values, JSON_stringify values = JSON_stringify [] -> values = [].


Lemma getCachedSignal_cached (key : string) (values : list JsValue) (c : TranslationCache) :
  signalCache (snd (getCachedSignal JSON_stringify key values c))
    !! getCacheKey JSON_stringify key values
  = Some (fst (getCachedSignal JSON_stringify key values c)).
Proof.
  unfold getCachedSignal.
  destruct (signalCache c !! getCacheKey JSON_stringify key values) eqn:E.
  - exact E.
  - cbn [fst snd signalCache]. apply lookup_insert_eq.
Qed.


End HandleFacts.





(* ===================================================================== *)
(** * The singleton registries *)
(* ===================================================================== *)

Section RegistryFacts.

Import Registry.





End RegistryFacts.




(* ===================================================================== *)
(** * The template compiler, compositionally *)
(* ===================================================================== *)

Section TemplateLaws.

Lemma append_cons (c : ascii) (s t : string) : String c s +:+ t = String c (s +:+ t).
Proof. reflexivity. Qed.

Lemma append_nil_l (t : string) : "" +:+ t = t.
Proof. reflexivity. Qed.

Lemma append_assoc (s t u : string) : (s +:+ t) +:+ u = s +:+ (t +:+ u).
Proof.
  induction s as [|c s IH]; [reflexivity |].
  rewrite !append_cons. now rewrite IH.
Qed.

Lemma substring_all (s : string) : String.substring 0 (String.length s) s = s.
Proof. induction s as [|c s IH]; simpl; [reflexivity | now rewrite IH]. Qed.

Lemma substring_after_prefix (x t : string) (n len : nat) :
  String.substring (String.length x + n) len (x +:+ t) = String.substring n len t.
Proof.
  induction x as [|c x IH]; [reflexivity |].
  rewrite append_cons. simpl. exact IH.
Qed.

Lemma substring_with_prefix (x t : string) (len : nat) :
  String.substring 0 (String.length x + len) (x +:+ t) = x +:+ String.substring 0 len t.
Proof.
  induction x as [|c x IH]; [reflexivity |].
  rewrite !append_cons. simpl. now rewrite IH.
Qed.

Lemma slice_after_prefix (x t : string) (start end_ : nat) :
  slice (x +:+ t) (start + String.length x) (end_ + String.length x) = slice t start end_.
Proof.
  unfold slice. replace (end_ + String.length x - (start + String.length x))
    with (end_ - start) by lia.
  rewrite (Nat.add_comm start). apply substring_after_prefix.
Qed.

Lemma slice_with_prefix (x t : string) (end_ : nat) :
  slice (x +:+ t) 0 (end_ + String.length x) = x +:+ slice t 0 end_.
Proof.
  unfold slice. rewrite !Nat.sub_0_r, (Nat.add_comm end_).
  apply substring_with_prefix.
Qed.

Lemma slice_from_after_prefix (x t : string) (start : nat) :
  slice_from (x +:+ t) (start + String.length x) = slice_from t start.
Proof.
  unfold slice_from. rewrite length_append.
  replace (String.length x + String.length t - (start + String.length x))
    with (String.length t - start) by lia.
  rewrite (Nat.add_comm start). apply substring_after_prefix.
Qed.

Lemma slice_from_start (t : string) : slice_from t 0 = t.
Proof. unfold slice_from. rewrite Nat.sub_0_r. apply substring_all. Qed.

Lemma regex_matches_from_shift (s : string) (pos skip k : nat) :
  regex_matches_from s (pos + k) skip = shifted k <$> regex_matches_from s pos skip.
Proof.
  revert pos skip. induction s as [|c s IH]; intros pos skip; [reflexivity |].
  cbn [regex_matches_from]. destruct skip as [|skip].
  - destruct (match_here (String c s)) as [ds|].
    + rewrite fmap_cons. f_equal. apply (IH (S pos)).
    + apply (IH (S pos)).
  - apply (IH (S pos)).
Qed.

Lemma regex_matches_from_skip (x t : string) (pos : nat) :
  regex_matches_from (x +:+ t) pos (String.length x)
  = regex_matches_from t (pos + String.length x) 0.
Proof.
  revert pos. induction x as [|c x IH]; intros pos.
  - now rewrite append_nil_l, Nat.add_0_r.
  - rewrite append_cons. cbn [regex_matches_from String.length].
    rewrite IH. f_equal. lia.
Qed.

Lemma take_digits_split (s ds rest : string) :
  take_digits s = (ds, rest) -> s = ds +:+ rest /\ all_digits ds = true.
Proof.
  revert ds rest. induction s as [|c s IH]; intros ds rest; cbn [take_digits].
  - intros [= <- <-]. auto.
  - destruct (is_digit c) eqn:Hc.
    + destruct (take_digits s) as [ds' rest'] eqn:E. intros [= <- <-].
      destruct (IH ds' rest' eq_refl) as [-> Hd]. split; [reflexivity |].
      cbn [all_digits]. now rewrite Hc, Hd.
    + intros [= <- <-]. auto.
Qed.

(** A match at the head of [s] is the text [{{digits}}]. *)
Lemma match_here_text (s ds : string) :
  match_here s = Some ds ->
  ds <> "" /\ all_digits ds = true
  /\ exists rest, s = "{{" +:+ ds +:+ "}}" +:+ rest.
Proof.
  unfold match_here.
  destruct s as [|c1 [|c2 s1]]; try discriminate.
  { destruct (Ascii.eqb_spec c1 "{"); [subst|]. all: try discriminate.
    all: try (destruct c1 as [[] [] [] [] [] [] [] []]; discriminate). }
  destruct (ascii_dec c1 "{") as [->|H1];
    [|destruct c1 as [[] [] [] [] [] [] [] []]; try discriminate; congruence].
  destruct (ascii_dec c2 "{") as [->|H2];
    [|destruct c2 as [[] [] [] [] [] [] [] []]; try discriminate; congruence].
  destruct (take_digits s1) as [ds' r] eqn:E.
  destruct (take_digits_split _ _ _ E) as [-> Hd].
  destruct ds' as [|d ds']; [discriminate |].
  destruct r as [|r1 [|r2 r]]; try discriminate.
  { destruct r1 as [[] [] [] [] [] [] [] []]; discriminate. }
  destruct (ascii_dec r1 "}") as [->|H3];
    [|destruct r1 as [[] [] [] [] [] [] [] []]; try discriminate; congruence].
  destruct (ascii_dec r2 "}") as [->|H4];
    [|destruct r2 as [[] [] [] [] [] [] [] []]; try discriminate; congruence].
  intros [= <-]. split; [discriminate |]. split; [exact Hd |].
  exists r. reflexivity.
Qed.


Lemma regex_matches_literal_head (c : ascii) (s : string) :
  match_here (String c s) = None ->
  regex_matches (String c s) = shifted 1 <$> regex_matches s.
Proof.
  intros H. unfold regex_matches. cbn [regex_matches_from]. rewrite H.
  apply (regex_matches_from_shift s 0 0 1).
Qed.

Lemma regex_matches_placeholder_head (ds rest : string) :
  ds <> "" -> all_digits ds = true ->
  regex_matches ("{{" +:+ ds +:+ "}}" +:+ rest)
  = {| match_text := "{{" +:+ ds +:+ "}}"; paramIndex := ds; offset := 0 |}
      :: (shifted (String.length ds + 4) <$> regex_matches rest).
Proof.
  intros Hne Hd. unfold regex_matches.
  pose proof (match_here_placeholder ds rest Hne Hd) as Hm.
  change ("{{" +:+ ds +:+ "}}" +:+ rest)
    with (String "{" (String "{" (ds +:+ "}}" +:+ rest))) in *.
  rewrite (regex_matches_at_match _ _ _ _ Hm). f_equal.
  change (String "{" (ds +:+ "}}" +:+ rest)) with ("{" +:+ (ds +:+ "}}" +:+ rest)).
  rewrite <- !append_assoc.
  replace (String.length ds + 3) with (String.length (("{" +:+ ds) +:+ "}}"))
    by (rewrite !length_append; simpl; lia).
  rewrite regex_matches_from_skip.
  rewrite !length_append. cbn [String.length].
  replace (1 + (1 + String.length ds + 2)) with (0 + (String.length ds + 4)) by lia.
  apply regex_matches_from_shift.
Qed.

(** The replacer on a template with [x] put in front, over the matches
    moved by the length of [x]: the same segments and placeholders. *)
Lemma fold_replacer_after_prefix (x t : string) (ms : list RegexMatch)
      (segs phs : list string) (last : nat) :
  fold_left (replacer (x +:+ t)) (shifted (String.length x) <$> ms)
            {| cs_segments := segs; cs_placeholders := phs;
               lastIndex := last + String.length x |}
  = let st := fold_left (replacer t) ms
                {| cs_segments := segs; cs_placeholders := phs; lastIndex := last |} in
    {| cs_segments := cs_segments st; cs_placeholders := cs_placeholders st;
       lastIndex := lastIndex st + String.length x |}.
Proof.
  revert segs phs last. induction ms as [|m ms IH]; intros segs phs last; [reflexivity |].
  rewrite fmap_cons. cbn [fold_left]. unfold replacer at 2 4.
  cbn [cs_segments cs_placeholders lastIndex shifted offset match_text paramIndex].
  rewrite slice_after_prefix.
  replace (offset m + String.length x + String.length (match_text m))
    with (offset m + String.length (match_text m) + String.length x) by lia.
  apply IH.
Qed.

(** Segments and placeholders already pushed stay in front. *)
Lemma fold_replacer_keeps_front (t : string) (ms : list RegexMatch)
      (segs0 segs phs0 phs : list string) (last : nat) :
  fold_left (replacer t) ms
            {| cs_segments := segs0 ++ segs; cs_placeholders := phs0 ++ phs;
               lastIndex := last |}
  = let st := fold_left (replacer t) ms
                {| cs_segments := segs; cs_placeholders := phs; lastIndex := last |} in
    {| cs_segments := segs0 ++ cs_segments st; cs_placeholders := phs0 ++ cs_placeholders st;
       lastIndex := lastIndex st |}.
Proof.
  revert segs phs last. induction ms as [|m ms IH]; intros segs phs last; [reflexivity |].
  cbn [fold_left]. unfold replacer at 2 4.
  cbn [cs_segments cs_placeholders lastIndex].
  rewrite <- !app_assoc. apply IH.
Qed.

Lemma fold_replacer_lengths (t : string) (ms : list RegexMatch) (st : CompileState) :
  length (cs_segments st) = length (cs_placeholders st) ->
  length (cs_segments (fold_left (replacer t) ms st))
  = length (cs_placeholders (fold_left (replacer t) ms st)).
Proof.
  revert st. induction ms as [|m ms IH]; intros st H; [exact H |].
  cbn [fold_left]. apply IH. unfold replacer. cbn [cs_segments cs_placeholders].
  rewrite !length_app. cbn [length]. lia.
Qed.


(** Compiling a template that starts with a placeholder. *)
Lemma compile_placeholder_head (ds rest : string) :
  ds <> "" -> all_digits ds = true ->
  compileTemplateFunction ("{{" +:+ ds +:+ "}}" +:+ rest)
  = {| segments := "" :: segments (compileTemplateFunction rest);
       placeholders := ds :: placeholders (compileTemplateFunction rest) |}.
Proof.
  intros Hne Hd.
  assert (Hx : "{{" +:+ ds +:+ "}}" +:+ rest = ("{{" +:+ ds +:+ "}}") +:+ rest).
  { change ("{{" +:+ ds +:+ "}}" +:+ rest) with ("{{" +:+ (ds +:+ ("}}" +:+ rest))).
    change ("{{" +:+ ds +:+ "}}") with ("{{" +:+ (ds +:+ "}}")).
    now rewrite !append_assoc. }
  assert (Hlen : String.length ("{{" +:+ ds +:+ "}}") = String.length ds + 4).
  { rewrite !length_append. simpl. lia. }
  set (x := "{{" +:+ ds +:+ "}}") in *.
  set (st := fold_left (replacer rest) (regex_matches rest)
               {| cs_segments := []; cs_placeholders := []; lastIndex := 0 |}).
  assert (Hst : fold_left (replacer (x +:+ rest)) (regex_matches (x +:+ rest))
                  {| cs_segments := []; cs_placeholders := []; lastIndex := 0 |}
                = {| cs_segments := "" :: cs_segments st;
                     cs_placeholders := ds :: cs_placeholders st;
                     lastIndex := lastIndex st + String.length x |}).
  { rewrite <- Hx, (regex_matches_placeholder_head ds rest Hne Hd), Hx.
    fold x. rewrite <- Hlen. cbn [fold_left].
    unfold replacer at 2.
    cbn [cs_segments cs_placeholders lastIndex offset match_text paramIndex app].
    unfold slice. rewrite Nat.sub_diag, substring_zero_length.
    rewrite (fold_replacer_after_prefix x rest (regex_matches rest) [""] [ds] 0).
    cbv zeta.
    pose proof (fold_replacer_keeps_front rest (regex_matches rest) [""] [] [ds] [] 0)
      as Hfront.
    cbn [app] in Hfront. rewrite Hfront. reflexivity. }
  rewrite Hx. unfold compileTemplateFunction. fold st. rewrite Hst.
  cbn [cs_segments cs_placeholders lastIndex segments placeholders].
  rewrite slice_from_after_prefix. reflexivity.
Qed.

(** Compiling a template behind a text [x] in which, and across the end
    of which, no placeholder starts: [x] goes in front of the first
    segment. *)
Lemma compile_literal_prefix (x t : string) :
  regex_matches (x +:+ t) = shifted (String.length x) <$> regex_matches t ->
  compileTemplateFunction (x +:+ t)
  = {| segments :=
         match segments (compileTemplateFunction t) with
         | hd :: tl => (x +:+ hd) :: tl
         | [] => []
         end;
       placeholders := placeholders (compileTemplateFunction t) |}.
Proof.
  intros Hms. unfold compileTemplateFunction. rewrite Hms.
  destruct (regex_matches t) as [|m ms].
  - cbn [fmap list_fmap fold_left cs_segments cs_placeholders lastIndex app
         segments placeholders].
    rewrite !slice_from_start. reflexivity.
  - set (st := fold_left (replacer t) ms
                 {| cs_segments := []; cs_placeholders := [];
                    lastIndex := offset m + String.length (match_text m) |}).
    assert (Ht : fold_left (replacer t) (m :: ms)
                   {| cs_segments := []; cs_placeholders := []; lastIndex := 0 |}
                 = {| cs_segments := slice t 0 (offset m) :: cs_segments st;
                      cs_placeholders := paramIndex m :: cs_placeholders st;
                      lastIndex := lastIndex st |}).
    { cbn [fold_left]. unfold replacer at 2.
      cbn [cs_segments cs_placeholders lastIndex app].
      apply (fold_replacer_keeps_front t ms [slice t 0 (offset m)] []
               [paramIndex m] []). }
    assert (Hxt : fold_left (replacer (x +:+ t)) (shifted (String.length x) <$> m :: ms)
                    {| cs_segments := []; cs_placeholders := []; lastIndex := 0 |}
                  = {| cs_segments := (x +:+ slice t 0 (offset m)) :: cs_segments st;
                       cs_placeholders := paramIndex m :: cs_placeholders st;
                       lastIndex := lastIndex st + String.length x |}).
    { rewrite fmap_cons. cbn [fold_left]. unfold replacer at 2.
      cbn [cs_segments cs_placeholders lastIndex shifted offset match_text paramIndex app].
      rewrite slice_with_prefix.
      replace (offset m + String.length x + String.length (match_text m))
        with (offset m + String.length (match_text m) + String.length x) by lia.
      rewrite fold_replacer_after_prefix. cbv zeta.
      pose proof (fold_replacer_keeps_front t ms [x +:+ slice t 0 (offset m)] []
                    [paramIndex m] [] (offset m + String.length (match_text m)))
        as Hfront.
      cbn [app] in Hfront. rewrite Hfront. reflexivity. }
    rewrite Ht, Hxt.
    cbn [cs_segments cs_placeholders lastIndex segments placeholders app].
    rewrite slice_from_after_prefix. reflexivity.
Qed.

(** [reduce] with a callback that appends to the accumulator. *)
Lemma reduce_from_append (g : string -> nat -> string) (l : list string) (i : nat)
      (a b : string) :
  reduce_from (fun prev current index => prev +:+ g current index) l i (a +:+ b)
  = a +:+ reduce_from (fun prev current index => prev +:+ g current index) l i b.
Proof.
  revert i b. induction l as [|c l IH]; intros i b; [reflexivity |].
  cbn [reduce_from]. rewrite append_assoc. apply IH.
Qed.

Lemma reduce_from_ext {A B : Type} (f g : B -> A -> nat -> B) (l : list A) (i : nat) (b : B) :
  (forall prev current index, f prev current index = g prev current index) ->
  reduce_from f l i b = reduce_from g l i b.
Proof.
  intros H. revert i b. induction l as [|c l IH]; intros i b; [reflexivity |].
  cbn [reduce_from]. now rewrite H, IH.
Qed.

Lemma reduce_from_succ {A B : Type} (f : B -> A -> nat -> B) (l : list A) (i : nat) (b : B) :
  reduce_from f l (S i) b = reduce_from (fun prev current index => f prev current (S index)) l i b.
Proof.
  revert i b. induction l as [|c l IH]; intros i b; [reflexivity |].
  cbn [reduce_from]. apply IH.
Qed.


Lemma taggedTemplate_cons (hd : string) (tl phs : list string) (values : list JsValue) :
  taggedTemplate (hd :: tl) phs values
  = (hd +:+ interpolated values (phs !! 0))
    +:+ reduce_from (fun prev current index =>
                       prev +:+ current +:+ interpolated values (phs !! S index))
                    tl 0 "".
Proof.
  unfold taggedTemplate, reduce. cbn [reduce_from].
  rewrite reduce_from_succ.
  change ("" +:+ hd +:+ interpolated values (phs !! 0))
    with (hd +:+ interpolated values (phs !! 0)).
  rewrite <- (append_empty_r (hd +:+ interpolated values (phs !! 0))) at 1.
  apply (reduce_from_append
           (fun current index => current +:+ interpolated values (phs !! S index))).
Qed.

Lemma compiled_segments_not_empty (t : string) :
  segments (compileTemplateFunction t) <> [].
Proof.
  unfold compileTemplateFunction. cbn [segments].
  intros H. apply app_eq_nil in H as [_ H]. discriminate.
Qed.

End TemplateLaws.

(** The segment list of a compiled template has exactly one more element
    than its placeholder list. *)
Theorem compiled_segments_outnumber_placeholders (template : string) :
  length (segments (compileTemplateFunction template))
  = S (length (placeholders (compileTemplateFunction template))).
Proof.
  unfold compileTemplateFunction. cbn [segments placeholders].
  rewrite length_app. cbn [length].
  rewrite (fold_replacer_lengths template (regex_matches template)
             {| cs_segments := []; cs_placeholders := []; lastIndex := 0 |} eq_refl).
  lia.
Qed.

Lemma render_at_placeholder (digits rest : string) (values : list JsValue) :
  digits <> "" ->
  all_digits digits = true ->
  render ("{{" +:+ digits +:+ "}}" +:+ rest) values
  = interpolated values (Some digits) +:+ render rest values.
Proof.
  intros Hne Hd. unfold render, call.
  rewrite (compile_placeholder_head digits rest Hne Hd).
  cbn [segments placeholders]. rewrite taggedTemplate_cons.
  cbn [lookup list_lookup]. reflexivity.
Qed.

(** A template that starts with a placeholder renders to what is
    substituted for the placeholder, followed by the rendering of the rest
    of the template. *)
Theorem render_placeholder_head (digits rest : string) (values : list JsValue) :
  digits <> "" ->
  all_digits digits = true ->
  render ("{{" +:+ digits +:+ "}}" +:+ rest) values
  = interpolated values (Some digits) +:+ render rest values.
Proof. exact (render_at_placeholder digits rest values). Qed.

Lemma render_placeholder_head_greeting :
  ("0" <> "" /\ all_digits "0" = true)
  /\ render "{{0}}, welcome" [JsString "Ann"] = "Ann" +:+ render ", welcome" [JsString "Ann"].
Proof.
  split; [split; [discriminate | reflexivity] |].
  exact (render_placeholder_head "0" ", welcome" [JsString "Ann"]
           ltac:(discriminate) eq_refl).
Defined.

(** A text [x] in which, and across the end of which, no placeholder
    starts is copied to the output. *)
Lemma render_literal_prefix (x t : string) (values : list JsValue) :
  regex_matches (x +:+ t) = shifted (String.length x) <$> regex_matches t ->
  render (x +:+ t) values = x +:+ render t values.
Proof.
  intros Hms. unfold render, call. rewrite (compile_literal_prefix x t Hms).
  cbn [segments placeholders].
  pose proof (compiled_segments_not_empty t) as Hne.
  destruct (segments (compileTemplateFunction t)) as [|hd tl]; [congruence |].
  rewrite !taggedTemplate_cons. now rewrite !append_assoc.
Qed.

Lemma render_at_literal (c : ascii) (rest : string) (values : list JsValue) :
  match_here (String c rest) = None ->
  render (String c rest) values = String c (render rest values).
Proof.
  intros H.
  apply (render_literal_prefix (String c "") rest values).
  apply (regex_matches_literal_head c rest H).
Qed.

(** A character at which no placeholder starts is copied to the output,
    and the rest of the template is rendered after it. *)
Theorem render_literal_head (c : ascii) (rest : string) (values : list JsValue) :
  match_here (String c rest) = None ->
  render (String c rest) values = String c (render rest values).
Proof. exact (render_at_literal c rest values). Qed.

Lemma render_literal_head_brace :
  match_here "{0}" = None
  /\ render "{0}" [JsInt 7] = String "{" (render "0}" [JsInt 7]).
Proof.
  split; [reflexivity |].
  exact (render_literal_head "{" "0}" [JsInt 7] eq_refl).
Defined.

Lemma match_here_starts_with_brace (c : ascii) (s ds : string) :
  match_here (String c s) = Some ds -> c = "{"%char.
Proof.
  intros H. destruct (match_here_text _ _ H) as (_ & _ & rest & Heq).
  change ("{{" +:+ ds +:+ "}}" +:+ rest)
    with (String "{" (String "{" (ds +:+ "}}" +:+ rest))) in Heq.
  now injection Heq.
Qed.

Lemma array_get_empty (idx : option string) : array_get [] idx = JsUndefined.
Proof.
  unfold array_get. destruct idx as [p|]; [|reflexivity].
  destruct (array_index p); reflexivity.
Qed.

(** Rendering without arguments gives back the template: every
    placeholder is replaced by its own text. *)
Theorem render_without_arguments_is_identity (template : string) :
  render template [] = template.
Proof.
  remember (String.length template) as n eqn:Hn.
  revert template Hn. induction n as [n IH] using lt_wf_ind. intros template Hn.
  destruct template as [|c s]; [reflexivity |].
  destruct (match_here (String c s)) as [ds|] eqn:E.
  - destruct (match_here_text _ _ E) as (Hne & Hd & rest & Heq).
    rewrite Heq in Hn |- *.
    rewrite (render_at_placeholder ds rest [] Hne Hd).
    rewrite (interpolated_absent [] ds Hne) by now rewrite array_get_empty.
    rewrite (IH (String.length rest)); [| |reflexivity].
    + change ("{{" +:+ ds +:+ "}}") with ("{{" +:+ (ds +:+ "}}")).
      now rewrite !append_assoc.
    + subst n. rewrite !length_append. simpl. lia.
  - rewrite (render_at_literal c s [] E).
    rewrite (IH (String.length s)); [reflexivity | subst n; simpl; lia | reflexivity].
Qed.

(** Text without an opening brace in front of a template is copied to
    the output. *)
Lemma render_plain_prefix (pre t : string) (values : list JsValue) :
  "{"%char ∉ list_ascii_of_string pre ->
  render (pre +:+ t) values = pre +:+ render t values.
Proof.
  induction pre as [|c pre IH]; intros Hpre; [reflexivity |].
  cbn [list_ascii_of_string] in Hpre. apply not_elem_of_cons in Hpre as [Hc Hpre].
  rewrite !append_cons. rewrite render_at_literal.
  - now rewrite IH.
  - destruct (match_here (String c (pre +:+ t))) eqn:E; [|reflexivity].
    apply match_here_starts_with_brace in E. congruence.
Qed.

Lemma render_plain (template : string) (values : list JsValue) :
  "{"%char ∉ list_ascii_of_string template ->
  render template values = template.
Proof.
  intros H. rewrite <- (append_empty_r template) at 1.
  rewrite (render_plain_prefix template "" values H).
  change (render "" values) with "". apply append_empty_r.
Qed.

(** A template without an opening brace is a constant: it renders to
    itself whatever the arguments are. *)
Theorem render_without_braces_is_constant (template : string) (values : list JsValue) :
  "{"%char ∉ list_ascii_of_string template ->
  render template values = template.
Proof. exact (render_plain template values). Qed.

Lemma render_without_braces_is_constant_welcome :
  ("{"%char ∉ list_ascii_of_string "Welcome")
  /\ render "Welcome" [JsString "John"; JsNull] = "Welcome".
Proof.
  assert (H : "{"%char ∉ list_ascii_of_string "Welcome").
  { cbn [list_ascii_of_string]. intros Hin.
    repeat (apply elem_of_cons in Hin as [Hin | Hin]; [discriminate |]).
    now apply elem_of_nil in Hin. }
  split; [exact H |].
  exact (render_without_braces_is_constant "Welcome" [JsString "John"; JsNull] H).
Defined.

(** One placeholder between two texts without opening braces: when the
    placeholder's digits are the canonical spelling of an index at which
    the argument list holds a value that is neither [null] nor
    [undefined], the template renders to the two texts around
    [String(value)]. *)
Theorem render_substitutes_present_argument
        (pre digits post : string) (values : list JsValue) (i : nat) (v : JsValue) :
  "{"%char ∉ list_ascii_of_string pre ->
  "{"%char ∉ list_ascii_of_string post ->
  array_index digits = Some i ->
  values !! i = Some v ->
  not_nullish v = true ->
  render (pre +:+ "{{" +:+ digits +:+ "}}" +:+ post) values
  = pre +:+ String_ v +:+ post.
Proof.
  intros Hpre Hpost Hidx Hv Hnn.
  assert (Hd : digits <> "" /\ all_digits digits = true).
  { unfold array_index in Hidx. destruct digits as [|c ds]; [discriminate |].
    split; [discriminate |].
    destruct (all_digits (String c ds)); [reflexivity | discriminate]. }
  destruct Hd as [Hne Hd].
  rewrite (render_plain_prefix pre _ values Hpre).
  rewrite (render_at_placeholder digits post values Hne Hd).
  rewrite (render_plain post values Hpost).
  unfold interpolated, array_get. rewrite Hidx, Hv. cbn [default from_option id].
  now rewrite Hnn.
Qed.

Lemma render_substitutes_present_argument_hello :
  render "Hello, {{0}}!" [JsString "John"] = "Hello, John!".
Proof.
  assert (H : forall s, s = "Hello, " \/ s = "!" -> "{"%char ∉ list_ascii_of_string s).
  { intros s [-> | ->]; cbn [list_ascii_of_string]; intros Hin;
      repeat (apply elem_of_cons in Hin as [Hin | Hin]; [discriminate |]);
      now apply elem_of_nil in Hin. }
  exact (render_substitutes_present_argument
           "Hello, " "0" "!" [JsString "John"] 0 (JsString "John")
           (H _ (or_introl eq_refl)) (H _ (or_intror eq_refl))
           eq_refl eq_refl eq_refl).
Defined.

(* ===================================================================== *)
(** * Compile once: lookups and the compiled entries *)
(* ===================================================================== *)

Section CompileOnce.

Implicit Types (store : gmap string nat) (heap : gmap nat (gmap string TranslationValue)).
Implicit Types (key lang : string) (values : list JsValue).

Lemma tryGetTranslate_compiles key lang values store heap :
  compiled_at store (snd (tryGetTranslate key lang values store heap)) lang key.
Proof.
  unfold compiled_at, tryGetTranslate, entry. intros template.
  destruct (store !! lang) as [r|]; cbn [snd]; [|discriminate].
  destruct ((heap !!! r) !! key) as [[t|f|]|] eqn:E; cbn [snd].
  - rewrite lookup_total_insert_eq, lookup_insert_eq. discriminate.
  - rewrite E. discriminate.
  - rewrite E. discriminate.
  - rewrite E. discriminate.
Qed.

Lemma tryGetTranslate_keeps_compiled key lang values store heap lang' key' :
  compiled_at store heap lang' key' ->
  compiled_at store (snd (tryGetTranslate key lang values store heap)) lang' key'.
Proof.
  unfold compiled_at, tryGetTranslate, entry. intros H template.
  destruct (store !! lang) as [r|] eqn:Hr; cbn [snd]; [|apply H].
  destruct ((heap !!! r) !! key) as [[t|f|]|] eqn:E; cbn [snd]; try apply H.
  destruct (store !! lang') as [r'|] eqn:Hr'; [|discriminate].
  destruct (decide (r' = r)) as [->|Hne].
  - rewrite lookup_total_insert_eq.
    destruct (decide (key' = key)) as [->|Hk].
    + rewrite lookup_insert_eq. discriminate.
    + rewrite lookup_insert_ne by congruence. apply H.
  - rewrite lookup_total_insert_ne by congruence. apply H.
Qed.

Lemma tryGetTranslate_on_compiled key lang values store heap :
  compiled_at store heap lang key ->
  snd (tryGetTranslate key lang values store heap) = heap.
Proof.
  unfold compiled_at, tryGetTranslate, entry. intros H.
  destruct (store !! lang) as [r|]; [|reflexivity].
  destruct ((heap !!! r) !! key) as [[t|f|]|] eqn:E; try reflexivity.
  now destruct (H t).
Qed.

Lemma resolveTranslation_compiles key lang values store heap :
  is_Some (store !! lang) ->
  compiled_at store (snd (SignalStore.resolveTranslation key lang values store heap)) lang key.
Proof.
  intros [r Hr]. unfold SignalStore.resolveTranslation. rewrite Hr.
  pose proof (tryGetTranslate_compiles key lang values store heap) as H.
  destruct (tryGetTranslate key lang values store heap). exact H.
Qed.

Lemma resolveTranslation_keeps_compiled key lang values store heap lang' key' :
  compiled_at store heap lang' key' ->
  compiled_at store (snd (SignalStore.resolveTranslation key lang values store heap))
              lang' key'.
Proof.
  intros Hc. unfold SignalStore.resolveTranslation.
  destruct (store !! lang); [|exact Hc].
  pose proof (tryGetTranslate_keeps_compiled key lang values store heap lang' key' Hc) as H.
  destruct (tryGetTranslate key lang values store heap). exact H.
Qed.

Lemma resolveTranslation_on_compiled key lang values store heap :
  compiled_at store heap lang key \/ store !! lang = None ->
  snd (SignalStore.resolveTranslation key lang values store heap) = heap.
Proof.
  intros H. unfold SignalStore.resolveTranslation.
  destruct (store !! lang) eqn:E; [|reflexivity].
  destruct H as [H | H]; [|discriminate].
  pose proof (tryGetTranslate_on_compiled key lang values store heap H) as H'.
  destruct (tryGetTranslate key lang values store heap). exact H'.
Qed.

Lemma resolveTranslation_settles key lang values store heap :
  let heap1 := snd (SignalStore.resolveTranslation key lang values store heap) in
  compiled_at store heap1 lang key \/ store !! lang = None.
Proof.
  cbv zeta. destruct (store !! lang) eqn:E; [left | now right].
  apply resolveTranslation_compiles. rewrite E. eauto.
Qed.

End CompileOnce.

Lemma translateFn_keeps_renderings
        (currentLang fallbackLang key : string) (values : list JsValue)
        (store : gmap string nat) (heap : gmap nat (gmap string TranslationValue))
        (lang' key' : string) (values' : list JsValue) :
  lookup_rendering store
    (snd (SignalStore.translateFn currentLang fallbackLang store key values heap))
    lang' key' values'
  = lookup_rendering store heap lang' key' values'.
Proof.
  unfold SignalStore.translateFn.
  pose proof (resolveTranslation_keeps_renderings
                key currentLang values store heap lang' key' values') as H1.
  destruct (SignalStore.resolveTranslation key currentLang values store heap)
    as [result heap1].
  cbn [snd] in H1. destruct (_ && _ && _); [|exact H1].
  now rewrite resolveTranslation_keeps_renderings.
Qed.

(** A lookup changes no translation: whatever [translateFn] writes back
    into a bundle, every key of every language renders as before, for
    every argument list. *)
Theorem translateFn_keeps_every_rendering
        (currentLang fallbackLang key : string) (values : list JsValue)
        (store : gmap string nat) (heap : gmap nat (gmap string TranslationValue))
        (lang' key' : string) (values' : list JsValue) :
  lookup_rendering store
    (snd (SignalStore.translateFn currentLang fallbackLang store key values heap))
    lang' key' values'
  = lookup_rendering store heap lang' key' values'.
Proof.
  exact (translateFn_keeps_renderings currentLang fallbackLang key values store heap
           lang' key' values').
Qed.

(** Compile once: a second lookup of the same key with the same
    arguments returns the same text and leaves the bundles as the first
    lookup left them. *)
Theorem translateFn_second_lookup_changes_nothing
        (currentLang fallbackLang key : string) (values : list JsValue)
        (store : gmap string nat) (heap : gmap nat (gmap string TranslationValue)) :
  let first := SignalStore.translateFn currentLang fallbackLang store key values heap in
  SignalStore.translateFn currentLang fallbackLang store key values (snd first) = first.
Proof.
  cbv zeta.
  assert (Hval : fst (SignalStore.translateFn currentLang fallbackLang store key values
                        (snd (SignalStore.translateFn currentLang fallbackLang store
                                key values heap)))
                 = fst (SignalStore.translateFn currentLang fallbackLang store key values heap)).
  { rewrite !translateFn_result. cbv zeta.
    now rewrite !translateFn_keeps_renderings. }
  assert (Hheap : snd (SignalStore.translateFn currentLang fallbackLang store key values
                         (snd (SignalStore.translateFn currentLang fallbackLang store
                                 key values heap)))
                  = snd (SignalStore.translateFn currentLang fallbackLang store key values heap)).
  { clear Hval. unfold SignalStore.translateFn at 2 3.
    pose proof (resolveTranslation_result key currentLang values store heap) as Hr1.
    pose proof (resolveTranslation_settles key currentLang values store heap) as Hs1.
    destruct (SignalStore.resolveTranslation key currentLang values store heap)
      as [result heap1] eqn:E1.
    cbn [fst snd] in Hr1, Hs1. cbv zeta in Hs1.
    destruct (String.eqb result key && truthy_string fallbackLang
              && negb (String.eqb fallbackLang currentLang)) eqn:Hcond.
    - pose proof (resolveTranslation_settles key fallbackLang values store heap1) as Hs2.
      pose proof (resolveTranslation_result key fallbackLang values store heap1) as Hr2.
      assert (Hk1 : compiled_at store
                      (snd (SignalStore.resolveTranslation key fallbackLang values store heap1))
                      currentLang key \/ store !! currentLang = None).
      { destruct Hs1 as [Hs1 | Hs1]; [left | now right].
        now apply resolveTranslation_keeps_compiled. }
      destruct (SignalStore.resolveTranslation key fallbackLang values store heap1)
        as [result2 heap2] eqn:E2.
      cbn [fst snd] in *. cbv zeta in Hs2.
      unfold SignalStore.translateFn.
      pose proof (resolveTranslation_on_compiled key currentLang values store heap2 Hk1) as Hsame.
      pose proof (resolveTranslation_result key currentLang values store heap2) as Hr3.
      destruct (SignalStore.resolveTranslation key currentLang values store heap2)
        as [result3 heap3].
      cbn [fst snd] in *. subst heap3.
      assert (result3 = result) as ->.
      { rewrite Hr3, Hr1.
        pose proof (resolveTranslation_keeps_renderings
                      key fallbackLang values store heap1 currentLang key values) as Hk.
        rewrite E2 in Hk. cbn [snd] in Hk. rewrite Hk.
        pose proof (resolveTranslation_keeps_renderings
                      key currentLang values store heap currentLang key values) as Hk'.
        rewrite E1 in Hk'. cbn [snd] in Hk'. now rewrite Hk'. }
      rewrite Hcond.
      pose proof (resolveTranslation_on_compiled key fallbackLang values store heap2 Hs2) as H4.
      destruct (SignalStore.resolveTranslation key fallbackLang values store heap2).
      exact H4.
    - cbn [snd]. unfold SignalStore.translateFn.
      pose proof (resolveTranslation_on_compiled key currentLang values store heap1 Hs1) as Hsame.
      pose proof (resolveTranslation_result key currentLang values store heap1) as Hr3.
      destruct (SignalStore.resolveTranslation key currentLang values store heap1)
        as [result3 heap3].
      cbn [fst snd] in *. subst heap3.
      assert (result3 = result) as ->.
      { rewrite Hr3, Hr1.
        pose proof (resolveTranslation_keeps_renderings
                      key currentLang values store heap currentLang key values) as Hk'.
        rewrite E1 in Hk'. cbn [snd] in Hk'. now rewrite Hk'. }
      now rewrite Hcond. }
  destruct (SignalStore.translateFn currentLang fallbackLang store key values
              (snd (SignalStore.translateFn currentLang fallbackLang store key values heap))).
  destruct (SignalStore.translateFn currentLang fallbackLang store key values heap).
  cbn [fst snd] in *. congruence.
Qed.

(* ===================================================================== *)
(** * The signal store over time *)
(* ===================================================================== *)

Section SignalStoreFacts.

Import SignalStore SignalLifecycle.

Lemma loadLanguageResource_signals (lang : string) (st : I18nState) :
  currentLanguage (loadLanguageResource lang st) = currentLanguage st
  /\ supportedLanguages (loadLanguageResource lang st) = supportedLanguages st
  /\ storeLanguage (loadLanguageResource lang st) = storeLanguage st.
Proof.
  unfold loadLanguageResource, getOrCreateTranslationRequest.
  repeat (destruct (bool_decide _); [auto |]).
  cbn [translationRequestCache setLoadingState with_loadingStates].
  destruct (translationRequestCache st !! lang); auto.
Qed.

Lemma handleTranslationResponse_signals (response : TranslationLoadResponse) (st : I18nState) :
  currentLanguage (handleTranslationResponse response st) = currentLanguage st
  /\ supportedLanguages (handleTranslationResponse response st) = supportedLanguages st.
Proof.
  unfold handleTranslationResponse.
  destruct (_ && _); [|auto]. destruct (data response); auto.
Qed.

Lemma deliver_signals (lang : string) (outcome : Emission (option ObjRef)) (st : I18nState) :
  currentLanguage (deliver lang outcome st) = currentLanguage st
  /\ supportedLanguages (deliver lang outcome st) = supportedLanguages st.
Proof.
  unfold deliver.
  destruct (request_emission lang outcome (heap st)) as [e1 heap1].
  destruct (catchError (empty_bundle_on_error lang) e1 heap1) as [[result|error] heap2].
  - unfold on_result, setLoadingState.
    cbn [currentLanguage supportedLanguages with_loadingStates].
    apply (handleTranslationResponse_signals result (with_heap heap2 st)).
  - auto.
Qed.

Lemma step_keeps_supported (st : I18nState) (ev : Event) :
  supportedLanguages (step st ev) = supportedLanguages st.
Proof.
  destruct ev as [lang | | lang | lang outcome | key values]; cbn [step].
  - unfold setLanguage. destruct (negb _); [reflexivity |].
    destruct (String.eqb _ _); reflexivity.
  - unfold autoLoadEffect. destruct (truthy_string _); [|reflexivity].
    apply loadLanguageResource_signals.
  - apply loadLanguageResource_signals.
  - apply deliver_signals.
  - unfold get. destruct (translateFn _ _ _ _ _ _). reflexivity.
Qed.

Lemma step_keeps_current_supported (st : I18nState) (ev : Event) :
  currentLanguage st ∈ supportedLanguages st ->
  currentLanguage (step st ev) ∈ supportedLanguages (step st ev).
Proof.
  intros H. rewrite step_keeps_supported.
  destruct ev as [lang | | lang | lang outcome | key values]; cbn [step].
  - unfold setLanguage. destruct (bool_decide (lang ∈ supportedLanguages st)) eqn:E;
      cbn [negb]; [|exact H].
    destruct (String.eqb _ _); [exact H |].
    cbn [currentLanguage with_currentLanguage]. now apply bool_decide_eq_true in E.
  - unfold autoLoadEffect. destruct (truthy_string _); [|exact H].
    now rewrite (proj1 (loadLanguageResource_signals _ st)).
  - now rewrite (proj1 (loadLanguageResource_signals _ st)).
  - now rewrite (proj1 (deliver_signals _ _ st)).
  - unfold get. destruct (translateFn _ _ _ _ _ _). exact H.
Qed.

Lemma initializeConfig_supported (configure : I18nTranslationConfig)
      (storage : gmap string string) :
  currentLanguage (initializeConfig configure storage)
  ∈ supportedLanguages (initializeConfig configure storage).
Proof.
  unfold initializeConfig. cbv zeta. cbn [currentLanguage supportedLanguages initial].
  set (wanted := or_else _ _).
  destruct (Nat.ltb 0 (length (languageSupported configure))) eqn:Hlen.
  - destruct (bool_decide (wanted ∈ languageSupported configure)) eqn:E.
    + now apply bool_decide_eq_true in E.
    + destruct (languageSupported configure) as [|l ls]; [discriminate |].
      cbn. apply list_elem_of_here.
  - rewrite bool_decide_eq_true_2 by apply list_elem_of_here.
    apply list_elem_of_here.
Qed.

End SignalStoreFacts.

(** The current language of an instance is always one of its supported
    languages: right after [initializeConfig], whatever the configuration
    and the saved language are, and after any sequence of language
    changes, effect runs, load attempts, HTTP outcomes and lookups. *)
Theorem current_language_is_always_supported
        (configure : SignalLifecycle.I18nTranslationConfig)
        (storage : gmap string string) (events : list SignalStore.Event) :
  let st := SignalStore.run events (SignalLifecycle.initializeConfig configure storage) in
  SignalStore.currentLanguage st ∈ SignalStore.supportedLanguages st.
Proof.
  cbv zeta.
  generalize (initializeConfig_supported configure storage).
  generalize (SignalLifecycle.initializeConfig configure storage).
  induction events as [|ev events IH]; intros st H; [exact H |].
  apply IH, step_keeps_current_supported, H.
Qed.

(** The chosen language survives a restart: after [setLanguage] with a
    supported, non-empty language and the run of the saving effect, an
    instance initialized with the same configuration from that storage
    starts in the chosen language. *)
Theorem saved_language_is_restored
        (configure : SignalLifecycle.I18nTranslationConfig)
        (storage : gmap string string) (lang : string) :
  lang <> "" ->
  lang ∈ SignalStore.supportedLanguages (SignalLifecycle.initializeConfig configure storage) ->
  let st := SignalStore.setLanguage lang (SignalLifecycle.initializeConfig configure storage) in
  SignalStore.currentLanguage st = lang
  /\ SignalStore.currentLanguage
       (SignalLifecycle.initializeConfig configure (SignalLifecycle.autoSaveEffect st storage))
     = lang.
Proof.
  intros Hne Hin. cbv zeta.
  assert (Hcur : SignalStore.currentLanguage
                   (SignalStore.setLanguage lang
                      (SignalLifecycle.initializeConfig configure storage)) = lang).
  { unfold SignalStore.setLanguage. rewrite (bool_decide_eq_true_2 _ Hin). cbn [negb].
    destruct (String.eqb_spec
                (SignalStore.currentLanguage
                   (SignalLifecycle.initializeConfig configure storage)) lang);
      [assumption | reflexivity]. }
  split; [exact Hcur |].
  unfold SignalLifecycle.autoSaveEffect. cbv zeta. rewrite Hcur.
  rewrite (truthy_string_nonempty _ Hne).
  unfold SignalLifecycle.initializeConfig at 1. cbv zeta.
  unfold SignalLifecycle.getData, SignalLifecycle.storeData. rewrite lookup_insert_eq.
  assert (Hor : forall b, SignalLifecycle.or_else (Some lang) b = lang).
  { intros b. unfold SignalLifecycle.or_else. now rewrite (truthy_string_nonempty _ Hne). }
  rewrite !Hor.
  cbn [SignalStore.currentLanguage SignalStore.initial].
  unfold SignalLifecycle.initializeConfig in Hin. cbv zeta in Hin.
  cbn [SignalStore.supportedLanguages SignalStore.initial] in Hin.
  destruct (Nat.ltb 0 (length (SignalLifecycle.languageSupported configure))).
  - now rewrite (bool_decide_eq_true_2 _ Hin).
  - now rewrite bool_decide_eq_true_2 by apply list_elem_of_here.
Qed.

Lemma saved_language_is_restored_vi :
  let st := SignalStore.setLanguage "vi"
              (SignalLifecycle.initializeConfig SignalLifecycle.CSP_LANGUAGE_CONFIG ∅) in
  SignalStore.currentLanguage (SignalLifecycle.initializeConfig
                                 SignalLifecycle.CSP_LANGUAGE_CONFIG ∅) = "en"
  /\ SignalStore.currentLanguage
       (SignalLifecycle.initializeConfig SignalLifecycle.CSP_LANGUAGE_CONFIG
          (SignalLifecycle.autoSaveEffect st ∅))
     = "vi".
Proof.
  cbv zeta. split; [reflexivity |].
  refine (proj2 (saved_language_is_restored
                   SignalLifecycle.CSP_LANGUAGE_CONFIG ∅ "vi" _ _)).
  - discriminate.
  - vm_compute. apply list_elem_of_further, list_elem_of_here.
Defined.

Section SignalStoreOverTime.

Import SignalStore SignalLifecycle.

Lemma handleTranslationResponse_keeps_loaded
      (response : TranslationLoadResponse) (st : I18nState) (lang : string) :
  is_Some (storeLanguage st !! lang) ->
  is_Some (storeLanguage (handleTranslationResponse response st) !! lang).
Proof.
  intros H. unfold handleTranslationResponse.
  destruct (_ && _); [|exact H]. destruct (data response) as [d|]; [|exact H].
  cbn [storeLanguage triggerLanguageChangedCallbacks with_effects with_storeLanguage].
  destruct (decide (Rx.lang response = lang)) as [->|Hne].
  - rewrite lookup_insert_eq. eauto.
  - now rewrite lookup_insert_ne.
Qed.

Lemma step_keeps_loaded (st : I18nState) (ev : Event) (lang : string) :
  is_Some (storeLanguage st !! lang) ->
  is_Some (storeLanguage (step st ev) !! lang).
Proof.
  intros H. destruct ev as [l | | l | l outcome | key values]; cbn [step].
  - unfold setLanguage. destruct (negb _); [exact H |].
    destruct (String.eqb _ _); exact H.
  - unfold autoLoadEffect. destruct (truthy_string _); [|exact H].
    now rewrite (proj2 (proj2 (loadLanguageResource_signals _ st))).
  - now rewrite (proj2 (proj2 (loadLanguageResource_signals _ st))).
  - unfold deliver.
    destruct (request_emission l outcome (heap st)) as [e1 heap1].
    destruct (catchError (empty_bundle_on_error l) e1 heap1) as [[result|error] heap2].
    + unfold on_result, setLoadingState. cbn [storeLanguage with_loadingStates].
      now apply handleTranslationResponse_keeps_loaded.
    + exact H.
  - unfold get. destruct (translateFn _ _ _ _ _ _). exact H.
Qed.

Lemma set_add_NoDup (fn : nat) (fns : list nat) : NoDup fns -> NoDup (set_add fn fns).
Proof.
  intros H. unfold set_add. destruct (bool_decide (fn ∈ fns)) eqn:E; [exact H |].
  apply bool_decide_eq_false in E.
  apply NoDup_app. split; [exact H |]. split.
  - intros x Hx Hx'. apply list_elem_of_singleton in Hx'. now subst.
  - apply NoDup_singleton.
Qed.

Lemma set_add_elem (fn : nat) (fns : list nat) : fn ∈ set_add fn fns.
Proof.
  unfold set_add. destruct (bool_decide (fn ∈ fns)) eqn:E.
  - now apply bool_decide_eq_true in E.
  - apply elem_of_app. right. apply list_elem_of_here.
Qed.

Lemma set_add_twice (fn : nat) (fns : list nat) :
  set_add fn (set_add fn fns) = set_add fn fns.
Proof.
  unfold set_add at 1. now rewrite (bool_decide_eq_true_2 _ (set_add_elem fn fns)).
Qed.

Lemma runs_of_callbacks (fn : nat) (fns : list nat) :
  NoDup fns ->
  runs_of fn (CallbackRun <$> fns) = if bool_decide (fn ∈ fns) then 1 else 0.
Proof.
  unfold runs_of. induction fns as [|g fns IH]; intros Hnd; [reflexivity |].
  apply NoDup_cons in Hnd as [Hg Hnd]. specialize (IH Hnd).
  rewrite fmap_cons, filter_cons. cbn [is_run_of].
  destruct (Nat.eqb_spec g fn) as [->|Hne].
  - rewrite decide_True by reflexivity. cbn [length]. rewrite IH.
    rewrite (bool_decide_eq_false_2 _ Hg).
    now rewrite bool_decide_eq_true_2 by apply list_elem_of_here.
  - rewrite decide_False by discriminate. rewrite IH.
    destruct (bool_decide (fn ∈ fns)) eqn:E.
    + apply bool_decide_eq_true in E.
      now rewrite bool_decide_eq_true_2 by now apply list_elem_of_further.
    + apply bool_decide_eq_false in E.
      rewrite bool_decide_eq_false_2; [reflexivity |].
      intros Hin. apply elem_of_cons in Hin as [-> | Hin]; congruence.
Qed.

Lemma runs_of_app (fn : nat) (l1 l2 : list Effect) :
  runs_of fn (l1 ++ l2) = runs_of fn l1 + runs_of fn l2.
Proof. unfold runs_of. now rewrite filter_app, length_app. Qed.

End SignalStoreOverTime.

(** Languages are added to the bundle store and never removed: a
    language that is loaded stays loaded through any sequence of language
    changes, effect runs, load attempts, HTTP outcomes and lookups. *)
Theorem loaded_languages_stay_loaded
        (st : SignalStore.I18nState) (events : list SignalStore.Event) (lang : string) :
  is_Some (SignalStore.storeLanguage st !! lang) ->
  is_Some (SignalStore.storeLanguage (SignalStore.run events st) !! lang).
Proof.
  revert st. induction events as [|ev events IH]; intros st H; [exact H |].
  apply IH, step_keeps_loaded, H.
Qed.

Lemma loaded_languages_stay_loaded_en :
  let st := SignalStore.deliver "en" (Next (Some 1))
              (SignalStore.initial "en" "en" "/i18n" ["en"; "vi"]) in
  is_Some (SignalStore.storeLanguage st !! "en")
  /\ is_Some (SignalStore.storeLanguage
                (SignalStore.run
                   [SignalStore.LanguageSet "vi"; SignalStore.EffectRun;
                    SignalStore.HttpOutcome "vi" (Error {| status := 500; statusText := "" |});
                    SignalStore.HttpOutcome "en" (Next None)] st) !! "en").
Proof.
  cbv zeta.
  assert (H : is_Some (SignalStore.storeLanguage
                         (SignalStore.deliver "en" (Next (Some 1))
                            (SignalStore.initial "en" "en" "/i18n" ["en"; "vi"])) !! "en"))
    by (vm_compute; eauto).
  split; [exact H |].
  exact (loaded_languages_stay_loaded _ _ "en" H).
Defined.

(** A completed load makes the bundle's translations visible.  When the
    current language is not loaded and its request delivers a bundle
    object, the bundle is stored, the loading flag is cleared, every
    registered callback runs once, and [get] answers with the bundle's
    rendering of a key (provided the rendering is not the key text
    itself). *)
Theorem loaded_bundle_is_used_by_get
        (st : SignalStore.I18nState) (lang key : string) (values : list JsValue)
        (bundle : nat) (e : TranslationValue) (r : string) :
  SignalStore.currentLanguage st = lang ->
  SignalStore.storeLanguage st !! lang = None ->
  (SignalStore.heap st !!! bundle) !! key = Some e ->
  rendering e values = Some r ->
  r <> key ->
  let st' := SignalStore.deliver lang (Next (Some bundle)) st in
  SignalStore.storeLanguage st' !! lang = Some bundle
  /\ SignalStore.loadingStates st' !! lang = Some false
  /\ SignalStore.log st'
     = (SignalStore.log st
        ++ (SignalStore.CallbackRun <$> SignalStore.languageChangedCallbacks st))%list
  /\ fst (SignalStore.get key values st') = r.
Proof.
  intros Hcur Hnew He Hr Hne st'.
  assert (Hst' : st' = SignalStore.setLoadingState lang false
                   (SignalStore.triggerLanguageChangedCallbacks
                      (SignalStore.with_storeLanguage
                         (<[lang := bundle]> (SignalStore.storeLanguage st))
                         (SignalStore.with_heap (SignalStore.heap st) st)))).
  { subst st'. unfold SignalStore.deliver, SignalStore.request_emission, catchError,
      shareReplay, map_. unfold SignalStore.on_result, SignalStore.handleTranslationResponse.
    cbn [Rx.lang Rx.data SignalStore.storeLanguage SignalStore.heap SignalStore.with_heap].
    rewrite Hnew. reflexivity. }
  rewrite Hst'. split; [|split; [|split]].
  - cbn. apply lookup_insert_eq.
  - cbn. apply lookup_insert_eq.
  - reflexivity.
  - unfold SignalStore.get.
    cbn [SignalStore.storeLanguage SignalStore.heap SignalStore.currentLanguage
         SignalStore.fallbackLanguage
         SignalStore.setLoadingState SignalStore.with_loadingStates
         SignalStore.triggerLanguageChangedCallbacks SignalStore.with_effects
         SignalStore.with_storeLanguage SignalStore.with_heap].
    pose proof (translateFn_on_hit (SignalStore.currentLanguage st)
                  (SignalStore.fallbackLanguage st) key values
                  (<[lang := bundle]> (SignalStore.storeLanguage st))
                  (SignalStore.heap st) r) as Hhit.
    destruct (SignalStore.translateFn _ _ _ _ _ _) as [result heap'].
    cbn [fst] in *. apply Hhit; [|now left].
    unfold lookup_rendering, entry. rewrite Hcur, lookup_insert_eq, He. exact Hr.
Qed.

Lemma loaded_bundle_is_used_by_get_welcome :
  let st := SignalStore.with_heap Scenario.empty_vi_heap
              (SignalStore.initial "en" "en" "/i18n" ["en"; "vi"]) in
  fst (SignalStore.get "welcome" [] st) = "welcome"
  /\ fst (SignalStore.get "welcome" [] (SignalStore.deliver "en" (Next (Some 1)) st))
     = "Welcome".
Proof.
  cbv zeta. split; [vm_compute; reflexivity |].
  refine (proj2 (proj2 (proj2
            (loaded_bundle_is_used_by_get
               (SignalStore.with_heap Scenario.empty_vi_heap
                  (SignalStore.initial "en" "en" "/i18n" ["en"; "vi"]))
               "en" "welcome" [] 1 (TString "Welcome") "Welcome"
               eq_refl _ _ eq_refl _)))).
  - vm_compute. reflexivity.
  - vm_compute. reflexivity.
  - discriminate.
Defined.

(** A callback is registered at most once, and a revoked callback is
    gone.  On an instance whose callbacks are a set, registering [fn]
    any number of times makes one bundle change run it exactly once;
    after [revoke] a bundle change does not run it. *)
Theorem callback_runs_once_until_revoked
        (st : SignalStore.I18nState) (fn : nat) (response : TranslationLoadResponse)
        (bundle : nat) :
  NoDup (SignalStore.languageChangedCallbacks st) ->
  data response = Some bundle ->
  isDifferentTranslateData (SignalStore.heap st)
    (SignalStore.storeLanguage st !! lang response) (Some bundle) = true ->
  let registered := SignalLifecycle.onChangedLanguage fn
                      (SignalLifecycle.onChangedLanguage fn st) in
  let revoked := SignalLifecycle.revoke fn registered in
  SignalLifecycle.runs_of fn
    (SignalStore.log (SignalStore.handleTranslationResponse response registered))
  = SignalLifecycle.runs_of fn (SignalStore.log st) + 1
  /\ SignalLifecycle.runs_of fn
       (SignalStore.log (SignalStore.handleTranslationResponse response revoked))
     = SignalLifecycle.runs_of fn (SignalStore.log st).
Proof.
  intros Hnd Hdata Hdiff. cbv zeta. split.
  - unfold SignalStore.handleTranslationResponse, SignalLifecycle.onChangedLanguage.
    cbn [SignalStore.storeLanguage SignalStore.heap SignalLifecycle.with_callbacks
         SignalStore.languageChangedCallbacks].
    rewrite Hdata, Hdiff. cbn [andb].
    rewrite bool_decide_eq_true_2 by eauto.
    cbn [SignalStore.log SignalStore.triggerLanguageChangedCallbacks SignalStore.with_effects
         SignalStore.with_storeLanguage SignalStore.languageChangedCallbacks
         SignalLifecycle.with_callbacks].
    rewrite set_add_twice, runs_of_app. f_equal.
    rewrite runs_of_callbacks by now apply set_add_NoDup.
    now rewrite bool_decide_eq_true_2 by apply set_add_elem.
  - unfold SignalStore.handleTranslationResponse, SignalLifecycle.revoke,
      SignalLifecycle.onChangedLanguage.
    cbn [SignalStore.storeLanguage SignalStore.heap SignalLifecycle.with_callbacks
         SignalStore.languageChangedCallbacks].
    rewrite Hdata, Hdiff. cbn [andb].
    rewrite bool_decide_eq_true_2 by eauto.
    cbn [SignalStore.log SignalStore.triggerLanguageChangedCallbacks SignalStore.with_effects
         SignalStore.with_storeLanguage SignalStore.languageChangedCallbacks
         SignalLifecycle.with_callbacks].
    rewrite runs_of_app.
    rewrite runs_of_callbacks.
    + rewrite bool_decide_eq_false_2; [lia |].
      unfold SignalLifecycle.set_delete. intros Hin.
      apply list_elem_of_filter in Hin as [Hin _]. congruence.
    + unfold SignalLifecycle.set_delete. apply NoDup_filter.
      now apply set_add_NoDup, set_add_NoDup.
Qed.

Lemma callback_runs_once_until_revoked_example :
  let st := SignalStore.initial "en" "en" "/i18n" ["en"] in
  let response := {| lang := "en"; data := Some 1 |} in
  SignalLifecycle.runs_of 7
    (SignalStore.log
       (SignalStore.handleTranslationResponse response
          (SignalLifecycle.onChangedLanguage 7 (SignalLifecycle.onChangedLanguage 7 st))))
  = 1.
Proof.
  cbv zeta.
  exact (proj1 (callback_runs_once_until_revoked
                  (SignalStore.initial "en" "en" "/i18n" ["en"]) 7
                  {| lang := "en"; data := Some 1 |} 1
                  (NoDup_nil_2) eq_refl eq_refl)).
Defined.

(* ===================================================================== *)
(** * [I18nTranslateImplement]: languages and disposal *)
(* ===================================================================== *)

(** [setLanguage] follows the list of the last [setLanguageSupport].
    [setLanguageSupport] replaces the supported list by a non-empty list
    and ignores an empty one, and never touches the current language;
    afterwards [setLanguage] makes a language current, and saves it, when
    the language is in the list, and changes neither the instance nor
    the storage when it is not. *)
Theorem setLanguage_follows_the_supported_list
        (s : ImplementLanguages.Session) (langs : list string) (lang : string) :
  let s1 := ImplementLanguages.setLanguageSupport langs s in
  let supported := match langs with [] => ImplementLanguages.getLanguageSupport s | _ => langs end in
  ImplementLanguages.getLanguageSupport s1 = supported
  /\ ImplementLanguages.getCurrentLang s1 = ImplementLanguages.getCurrentLang s
  /\ (lang ∈ supported ->
      ImplementLanguages.getCurrentLang (ImplementLanguages.setLanguage lang s1) = lang
      /\ (lang <> ImplementLanguages.getCurrentLang s ->
          ImplementLanguages.storage (ImplementLanguages.setLanguage lang s1)
            !! ImplementLanguages.I18N_STORAGE_KEY = Some lang))
  /\ (lang ∉ supported ->
      ImplementLanguages.this (ImplementLanguages.setLanguage lang s1)
      = ImplementLanguages.this s1
      /\ ImplementLanguages.storage (ImplementLanguages.setLanguage lang s1)
         = ImplementLanguages.storage s).
Proof.
  cbv zeta.
  assert (H1 : ImplementLanguages.getLanguageSupport
                 (ImplementLanguages.setLanguageSupport langs s)
               = match langs with [] => ImplementLanguages.getLanguageSupport s | _ => langs end).
  { unfold ImplementLanguages.setLanguageSupport. destruct langs; reflexivity. }
  assert (H2 : ImplementLanguages.getCurrentLang
                 (ImplementLanguages.setLanguageSupport langs s)
               = ImplementLanguages.getCurrentLang s).
  { unfold ImplementLanguages.setLanguageSupport. destruct langs; reflexivity. }
  assert (H3 : ImplementLanguages.storage (ImplementLanguages.setLanguageSupport langs s)
               = ImplementLanguages.storage s).
  { unfold ImplementLanguages.setLanguageSupport. destruct langs; reflexivity. }
  split; [exact H1 |]. split; [exact H2 |].
  rewrite <- H1. unfold ImplementLanguages.getLanguageSupport.
  unfold ImplementLanguages.getCurrentLang in *.
  set (s1 := ImplementLanguages.setLanguageSupport langs s) in *.
  split.
  - intros Hin. unfold ImplementLanguages.setLanguage.
    rewrite (bool_decide_eq_true_2 _ Hin). cbn [negb].
    destruct (String.eqb_spec (Implement.currentLanguage (ImplementLanguages.this s1)) lang)
      as [Heq | Hne]; cbn [negb].
    + split; [exact Heq |]. intros Hdiff. congruence.
    + split; [reflexivity |]. intros _. cbn. apply lookup_insert_eq.
  - intros Hout. unfold ImplementLanguages.setLanguage.
    rewrite (bool_decide_eq_false_2 _ Hout). cbn [negb]. cbn. auto.
Qed.

Lemma setLanguage_follows_the_supported_list_example :
  let s := {| ImplementLanguages.this := Scenario.implement_vi Scenario.empty_vi_heap;
              ImplementLanguages.storage := ∅; ImplementLanguages.console := [] |} in
  let s1 := ImplementLanguages.setLanguageSupport ["vi"; "ja"] s in
  "ja" ∈ ["vi"; "ja"]
  /\ ImplementLanguages.getCurrentLang (ImplementLanguages.setLanguage "ja" s1) = "ja"
  /\ ImplementLanguages.storage (ImplementLanguages.setLanguage "ja" s1) !! "csp-lang"
     = Some "ja".
Proof.
  cbv zeta.
  assert (Hin : "ja" ∈ ["vi"; "ja"])
    by apply list_elem_of_further, list_elem_of_here.
  split; [exact Hin |].
  pose proof (proj1 (proj2 (proj2
                (setLanguage_follows_the_supported_list
                   {| ImplementLanguages.this := Scenario.implement_vi Scenario.empty_vi_heap;
                      ImplementLanguages.storage := ∅; ImplementLanguages.console := [] |}
                   ["vi"; "ja"] "ja"))) Hin) as [Hcur Hsaved].
  split; [exact Hcur |]. apply Hsaved. discriminate.
Defined.



(* ===================================================================== *)
(** * The translation cache over time *)
(* ===================================================================== *)

Section CacheFacts.

Import Handles CacheMaintenance.

Variable JSON_stringify : list JsValue -> string.

Lemma lookup_foldr_delete {A : Type} (m : gmap string A) (ks : list string) (k : string) :
  foldr delete m ks !! k = if bool_decide (k ∈ ks) then None else m !! k.
Proof.
  induction ks as [|k' ks IH]; cbn [foldr].
  - rewrite bool_decide_eq_false_2; [reflexivity | apply not_elem_of_nil].
  - destruct (decide (k' = k)) as [->|Hne].
    + rewrite lookup_delete_eq.
      now rewrite bool_decide_eq_true_2 by apply list_elem_of_here.
    + rewrite lookup_delete_ne by assumption. rewrite IH.
      destruct (bool_decide (k ∈ ks)) eqn:E.
      * apply bool_decide_eq_true in E.
        now rewrite bool_decide_eq_true_2 by now apply list_elem_of_further.
      * apply bool_decide_eq_false in E.
        rewrite bool_decide_eq_false_2; [reflexivity |].
        intros Hin. apply elem_of_cons in Hin as [-> | Hin]; congruence.
Qed.

Lemma elem_of_keysToDelete (key k : string) (c : TranslationCache) :
  k ∈ keysToDelete key c <-> String.prefix key k = true /\ is_Some (signalCache c !! k).
Proof.
  unfold keysToDelete. rewrite list_elem_of_filter, elem_of_elements, elem_of_dom.
  reflexivity.
Qed.

Lemma invalidateKey_signal (key k : string) (c : TranslationCache) :
  signalCache (invalidateKey key c) !! k
  = if String.prefix key k then None else signalCache c !! k.
Proof.
  unfold invalidateKey. cbn [signalCache]. rewrite lookup_foldr_delete.
  destruct (bool_decide (k ∈ keysToDelete key c)) eqn:E.
  - apply bool_decide_eq_true, elem_of_keysToDelete in E as [-> _]. reflexivity.
  - apply bool_decide_eq_false in E. rewrite elem_of_keysToDelete in E.
    destruct (String.prefix key k); [|reflexivity].
    destruct (signalCache c !! k) eqn:Hk; [|reflexivity].
    destruct E. eauto.
Qed.

Lemma invalidateKey_observable (key k : string) (c : TranslationCache) :
  well_formed c ->
  observableCache (invalidateKey key c) !! k
  = if String.prefix key k then None else observableCache c !! k.
Proof.
  intros Hwf. unfold invalidateKey. cbn [observableCache]. rewrite lookup_foldr_delete.
  destruct (bool_decide (k ∈ keysToDelete key c)) eqn:E.
  - apply bool_decide_eq_true, elem_of_keysToDelete in E as [-> _]. reflexivity.
  - apply bool_decide_eq_false in E. rewrite elem_of_keysToDelete in E.
    destruct (String.prefix key k); [|reflexivity].
    destruct (observableCache c !! k) eqn:Hk; [|reflexivity].
    destruct E. split; [reflexivity |].
    apply (observables_have_signals c Hwf). rewrite Hk. eauto.
Qed.

Lemma empty_cache_well_formed : well_formed empty_cache.
Proof.
  split; cbn [signalCache observableCache constructed invalidateCache empty_cache]; intros;
    repeat match goal with
           | H : is_Some (∅ !! _) |- _ => destruct H as [? H]
           | H : ∅ !! _ = Some _ |- _ => rewrite lookup_empty in H; discriminate
           end.
Qed.

Lemma getCachedSignal_well_formed (key : string) (values : list JsValue)
      (c : TranslationCache) :
  well_formed c -> well_formed (snd (getCachedSignal JSON_stringify key values c)).
Proof.
  intros Hwf. unfold getCachedSignal.
  destruct (signalCache c !! getCacheKey JSON_stringify key values) eqn:E; [exact Hwf |].
  cbn [snd]. set (ck := getCacheKey JSON_stringify key values) in *.
  split; cbn [signalCache observableCache constructed].
  - intros k Hk. destruct (decide (ck = k)) as [<-|Hne].
    + rewrite lookup_insert_eq. eauto.
    + rewrite lookup_insert_ne by assumption. now apply (observables_have_signals c Hwf).
  - intros k h Hk. destruct (decide (ck = k)) as [<-|Hne].
    + rewrite lookup_insert_eq in Hk. injection Hk as <-. cbn. lia.
    + rewrite lookup_insert_ne in Hk by assumption.
      pose proof (signals_are_built c Hwf k h Hk). lia.
  - intros k o Hk. pose proof (observables_are_built c Hwf k o Hk). lia.
  - intros k1 k2 h1 h2 H1 H2 Hid.
    destruct (decide (ck = k1)) as [<-|Hne1], (decide (ck = k2)) as [<-|Hne2].
    + reflexivity.
    + rewrite lookup_insert_eq in H1. rewrite lookup_insert_ne in H2 by assumption.
      injection H1 as <-. pose proof (signals_are_built c Hwf k2 h2 H2).
      cbn in Hid. lia.
    + rewrite lookup_insert_eq in H2. rewrite lookup_insert_ne in H1 by assumption.
      injection H2 as <-. pose proof (signals_are_built c Hwf k1 h1 H1).
      cbn in Hid. lia.
    + rewrite lookup_insert_ne in H1, H2 by assumption.
      now apply (signals_are_distinct c Hwf k1 k2 h1 h2).
  - apply (observables_are_distinct c Hwf).
Qed.

Lemma getCachedSignal_keeps_observables (key : string) (values : list JsValue)
      (c : TranslationCache) :
  observableCache (snd (getCachedSignal JSON_stringify key values c)) = observableCache c
  /\ constructed c <= constructed (snd (getCachedSignal JSON_stringify key values c)).
Proof.
  unfold getCachedSignal.
  destruct (signalCache c !! getCacheKey JSON_stringify key values); cbn; auto.
Qed.

Lemma getCachedObservable_well_formed (key : string) (values : list JsValue)
      (c : TranslationCache) :
  well_formed c -> well_formed (snd (getCachedObservable JSON_stringify key values c)).
Proof.
  intros Hwf. unfold getCachedObservable.
  destruct (observableCache c !! getCacheKey JSON_stringify key values) eqn:E; [exact Hwf |].
  pose proof (getCachedSignal_well_formed key values c Hwf) as Hwf1.
  pose proof (getCachedSignal_cached JSON_stringify key values c) as Hcached.
  pose proof (getCachedSignal_keeps_observables key values c) as [Hobs Hle].
  destruct (getCachedSignal JSON_stringify key values c) as [signal c1].
  cbn [fst snd] in *. set (ck := getCacheKey JSON_stringify key values) in *.
  split; cbn [signalCache observableCache constructed].
  - intros k Hk. destruct (decide (ck = k)) as [<-|Hne].
    + rewrite Hcached. eauto.
    + rewrite lookup_insert_ne in Hk by assumption.
      now apply (observables_have_signals c1 Hwf1).
  - intros k h Hk. pose proof (signals_are_built c1 Hwf1 k h Hk). lia.
  - intros k o Hk. destruct (decide (ck = k)) as [<-|Hne].
    + rewrite lookup_insert_eq in Hk. injection Hk as <-. cbn. lia.
    + rewrite lookup_insert_ne in Hk by assumption.
      pose proof (observables_are_built c1 Hwf1 k o Hk). lia.
  - apply (signals_are_distinct c1 Hwf1).
  - intros k1 k2 o1 o2 H1 H2 Hid.
    destruct (decide (ck = k1)) as [<-|Hne1], (decide (ck = k2)) as [<-|Hne2].
    + reflexivity.
    + rewrite lookup_insert_eq in H1. rewrite lookup_insert_ne in H2 by assumption.
      injection H1 as <-. pose proof (observables_are_built c1 Hwf1 k2 o2 H2).
      cbn in Hid. lia.
    + rewrite lookup_insert_eq in H2. rewrite lookup_insert_ne in H1 by assumption.
      injection H2 as <-. pose proof (observables_are_built c1 Hwf1 k1 o1 H1).
      cbn in Hid. lia.
    + rewrite lookup_insert_ne in H1, H2 by assumption.
      now apply (observables_are_distinct c1 Hwf1 k1 k2 o1 o2).
Qed.

Lemma invalidateCache_well_formed (c : TranslationCache) : well_formed (invalidateCache c).
Proof.
  split; cbn [signalCache observableCache constructed invalidateCache empty_cache]; intros;
    repeat match goal with
           | H : is_Some (∅ !! _) |- _ => destruct H as [? H]
           | H : ∅ !! _ = Some _ |- _ => rewrite lookup_empty in H; discriminate
           end.
Qed.

Lemma invalidateKey_well_formed (key : string) (c : TranslationCache) :
  well_formed c -> well_formed (invalidateKey key c).
Proof.
  intros Hwf.
  assert (Hs : forall k h, signalCache (invalidateKey key c) !! k = Some h ->
                           signalCache c !! k = Some h /\ String.prefix key k = false).
  { intros k h. rewrite invalidateKey_signal.
    destruct (String.prefix key k); [discriminate | auto]. }
  assert (Ho : forall k o, observableCache (invalidateKey key c) !! k = Some o ->
                           observableCache c !! k = Some o /\ String.prefix key k = false).
  { intros k o. rewrite (invalidateKey_observable key k c Hwf).
    destruct (String.prefix key k); [discriminate | auto]. }
  split.
  - intros k [o Hk]. destruct (Ho k o Hk) as [Hk' Hp].
    rewrite invalidateKey_signal, Hp.
    apply (observables_have_signals c Hwf). rewrite Hk'. eauto.
  - intros k h Hk. destruct (Hs k h Hk) as [Hk' _].
    apply (signals_are_built c Hwf k h Hk').
  - intros k o Hk. destruct (Ho k o Hk) as [Hk' _].
    apply (observables_are_built c Hwf k o Hk').
  - intros k1 k2 h1 h2 H1 H2. destruct (Hs k1 h1 H1) as [H1' _], (Hs k2 h2 H2) as [H2' _].
    now apply (signals_are_distinct c Hwf k1 k2 h1 h2).
  - intros k1 k2 o1 o2 H1 H2. destruct (Ho k1 o1 H1) as [H1' _], (Ho k2 o2 H2) as [H2' _].
    now apply (observables_are_distinct c Hwf k1 k2 o1 o2).
Qed.

Lemma run_ops_well_formed (ops : list CacheOp) (c : TranslationCache) :
  well_formed c -> well_formed (run_ops JSON_stringify ops c).
Proof.
  revert c. induction ops as [|op ops IH]; intros c Hwf; [exact Hwf |].
  apply IH. destruct op as [key values | key values | | key]; cbn [apply_op].
  - now apply getCachedSignal_well_formed.
  - now apply getCachedObservable_well_formed.
  - apply invalidateCache_well_formed.
  - now apply invalidateKey_well_formed.
Qed.

Lemma prefix_append (s t : string) : String.prefix s (s +:+ t) = true.
Proof.
  induction s as [|c s IH]; [now destruct t |].
  change (String c s +:+ t) with (String c (s +:+ t)). cbn [String.prefix].
  destruct (ascii_dec c c); [exact IH | congruence].
Qed.

Lemma prefix_getCacheKey (key : string) (values : list JsValue) :
  String.prefix key (getCacheKey JSON_stringify key values) = true.
Proof.
  unfold getCacheKey. destruct (Nat.ltb 0 (length values)).
  - apply prefix_append.
  - rewrite <- (append_empty_r key) at 2. apply prefix_append.
Qed.

End CacheFacts.

(** [invalidateKey(key)] forgets exactly the cache keys that start with
    [key], in both maps, and keeps every other entry; the next
    [getCachedSignal] for [key], with any arguments, builds a new
    handle.  (Stated for every cache the operations produce from the
    empty one.) *)
Theorem invalidateKey_forgets_keys_with_the_prefix
        (JSON_stringify : list JsValue -> string)
        (ops : list CacheMaintenance.CacheOp) (key : string) :
  let c := CacheMaintenance.run_ops JSON_stringify ops CacheMaintenance.empty_cache in
  let c' := CacheMaintenance.invalidateKey key c in
  (forall k,
      Handles.signalCache c' !! k
      = if String.prefix key k then None else Handles.signalCache c !! k)
  /\ (forall k,
        Handles.observableCache c' !! k
        = if String.prefix key k then None else Handles.observableCache c !! k)
  /\ (forall values,
        fst (Handles.getCachedSignal JSON_stringify key values c')
        = {| Handles.signal_id := Handles.constructed c;
             Handles.signal_key := key; Handles.signal_values := values |}).
Proof.
  cbv zeta.
  pose proof (run_ops_well_formed JSON_stringify ops _ empty_cache_well_formed) as Hwf.
  split; [|split].
  - intros k. apply invalidateKey_signal.
  - intros k. now apply invalidateKey_observable.
  - intros values. unfold Handles.getCachedSignal.
    rewrite invalidateKey_signal, prefix_getCacheKey. reflexivity.
Qed.

(** Different cache keys never share a handle: in every cache the
    operations produce from the empty one, two cached signals (and two
    cached observables) under different keys are different objects. *)
Theorem different_cache_keys_hold_different_handles
        (JSON_stringify : list JsValue -> string)
        (ops : list CacheMaintenance.CacheOp) (k1 k2 : string) :
  k1 <> k2 ->
  let c := CacheMaintenance.run_ops JSON_stringify ops CacheMaintenance.empty_cache in
  (forall h1 h2,
      Handles.signalCache c !! k1 = Some h1 -> Handles.signalCache c !! k2 = Some h2 ->
      Handles.signal_id h1 <> Handles.signal_id h2)
  /\ (forall o1 o2,
        Handles.observableCache c !! k1 = Some o1 ->
        Handles.observableCache c !! k2 = Some o2 ->
        Handles.observable_id o1 <> Handles.observable_id o2).
Proof.
  intros Hne. cbv zeta.
  pose proof (run_ops_well_formed JSON_stringify ops _ empty_cache_well_formed) as Hwf.
  split.
  - intros h1 h2 H1 H2 Hid.
    apply Hne, (CacheMaintenance.signals_are_distinct _ Hwf k1 k2 h1 h2 H1 H2 Hid).
  - intros o1 o2 H1 H2 Hid.
    apply Hne, (CacheMaintenance.observables_are_distinct _ Hwf k1 k2 o1 o2 H1 H2 Hid).
Qed.

Lemma different_cache_keys_hold_different_handles_example :
  let c := CacheMaintenance.run_ops Scenario.stringify
             [CacheMaintenance.GetSignal "welcome" [];
              CacheMaintenance.InvalidateKey "home";
              CacheMaintenance.GetObservable "greeting" [JsString "John"]]
             CacheMaintenance.empty_cache in
  "welcome" <> "greeting:['John']"
  /\ (exists h1 h2,
        Handles.signalCache c !! "welcome" = Some h1
        /\ Handles.signalCache c !! "greeting:['John']" = Some h2
        /\ Handles.signal_id h1 <> Handles.signal_id h2).
Proof.
  cbv zeta. split; [discriminate |].
  eexists _, _. split; [vm_compute; reflexivity |]. split; [vm_compute; reflexivity |].
  refine (proj1 (different_cache_keys_hold_different_handles
                   Scenario.stringify
                   [CacheMaintenance.GetSignal "welcome" [];
                    CacheMaintenance.InvalidateKey "home";
                    CacheMaintenance.GetObservable "greeting" [JsString "John"]]
                   "welcome" "greeting:['John']" _) _ _ _ _).
  - discriminate.
  - vm_compute. reflexivity.
  - vm_compute. reflexivity.
Defined.

(** Two different requests can have one cache key.  After
    [getCachedSignal(key, values)] with a non-empty argument list, a
    request for the translation key [key + ":" + JSON.stringify(values)]
    without arguments gets the handle of the first request; when the
    first request built the handle, it translates [key], not the key
    that was asked for. *)
Theorem cache_key_of_key_with_arguments_is_shared
        (JSON_stringify : list JsValue -> string)
        (key : string) (values : list JsValue) (c : Handles.TranslationCache) :
  values <> [] ->
  let first := Handles.getCachedSignal JSON_stringify key values c in
  Handles.getCachedSignal JSON_stringify (key +:+ ":" +:+ JSON_stringify values) []
                          (snd first)
  = first
  /\ (Handles.signalCache c !! (key +:+ ":" +:+ JSON_stringify values) = None ->
      Handles.signal_key (fst first) = key).
Proof.
  intros Hne. cbv zeta.
  assert (Hkey : Handles.getCacheKey JSON_stringify key values
                 = key +:+ ":" +:+ JSON_stringify values).
  { unfold Handles.getCacheKey. destruct values; [congruence | reflexivity]. }
  split.
  - pose proof (getCachedSignal_cached JSON_stringify key values c) as H.
    rewrite Hkey in H.
    unfold Handles.getCachedSignal at 1.
    change (Handles.getCacheKey JSON_stringify (key +:+ ":" +:+ JSON_stringify values) [])
      with (key +:+ ":" +:+ JSON_stringify values).
    rewrite H. now destruct (Handles.getCachedSignal JSON_stringify key values c).
  - intros Hmiss. unfold Handles.getCachedSignal. rewrite Hkey, Hmiss. reflexivity.
Qed.

Lemma cache_key_of_key_with_arguments_is_shared_example :
  let first := Handles.getCachedSignal Scenario.stringify "greeting" [JsString "John"]
                                       CacheMaintenance.empty_cache in
  [JsString "John"] <> []
  /\ fst (Handles.getCachedSignal Scenario.stringify "greeting:['John']" [] (snd first))
     = {| Handles.signal_id := 0; Handles.signal_key := "greeting";
          Handles.signal_values := [JsString "John"] |}.
Proof.
  cbv zeta. split; [discriminate |].
  exact (f_equal fst
           (proj1 (cache_key_of_key_with_arguments_is_shared
                     Scenario.stringify "greeting" [JsString "John"]
                     CacheMaintenance.empty_cache ltac:(discriminate)))).
Defined.

(* ===================================================================== *)
(** * The LRU cache *)
(* ===================================================================== *)

Section LRUFacts.

Import Handles LRU.

Lemma map_get_None_keys (k : string) (m : list (string * Entry)) :
  map_get k m = None <-> k ∉ m.*1.
Proof.
  induction m as [|[k' e] m IH]; cbn [map_get fmap list_fmap fst].
  - split; [intros _; apply not_elem_of_nil | reflexivity].
  - destruct (String.eqb_spec k' k) as [->|Hne].
    + split; [discriminate | intros H; destruct H; apply list_elem_of_here].
    + rewrite IH, not_elem_of_cons. split; [intros H; split; congruence | tauto].
Qed.

Lemma map_set_absent (k : string) (e : Entry) (m : list (string * Entry)) :
  k ∉ m.*1 -> map_set k e m = (m ++ [(k, e)])%list.
Proof.
  induction m as [|[k' e'] m IH]; cbn [map_set fmap list_fmap fst]; [reflexivity |].
  intros H. apply not_elem_of_cons in H as [Hne Hin].
  destruct (String.eqb_spec k' k) as [->|_]; [congruence |].
  now rewrite IH.
Qed.

Lemma map_set_keys_present (k : string) (e : Entry) (m : list (string * Entry)) :
  k ∈ m.*1 -> (map_set k e m).*1 = m.*1.
Proof.
  induction m as [|[k' e'] m IH]; cbn [map_set fmap list_fmap fst].
  - intros H. now apply elem_of_nil in H.
  - intros H. destruct (String.eqb_spec k' k) as [->|Hne]; [reflexivity |].
    apply elem_of_cons in H as [-> | H]; [congruence |].
    cbn [fmap list_fmap fst]. f_equal. now apply IH.
Qed.

Lemma map_get_set_same (k : string) (e : Entry) (m : list (string * Entry)) :
  map_get k (map_set k e m) = Some e.
Proof.
  induction m as [|[k' e'] m IH]; cbn [map_set map_get].
  - now rewrite String.eqb_refl.
  - destruct (String.eqb_spec k' k) as [->|Hne]; cbn [map_get].
    + now rewrite String.eqb_refl.
    + apply String.eqb_neq in Hne. now rewrite Hne.
Qed.

Lemma map_delete_keys (k : string) (m : list (string * Entry)) :
  (map_delete k m).*1 = filter (fun k' => k' <> k) (m.*1).
Proof.
  unfold map_delete. induction m as [|[k' e] m IH]; [reflexivity |].
  rewrite fmap_cons, !filter_cons. cbn [fst].
  destruct (decide (k' <> k)); cbn [fmap list_fmap fst]; now rewrite IH.
Qed.

Lemma filter_out_length (k : string) (ks : list string) :
  NoDup ks -> k ∈ ks -> S (length (filter (fun k' => k' <> k) ks)) = length ks.
Proof.
  induction ks as [|k' ks IH]; intros Hnd Hin; [now apply elem_of_nil in Hin |].
  apply NoDup_cons in Hnd as [Hk' Hnd]. rewrite filter_cons.
  destruct (decide (k' <> k)) as [Hne | Heq].
  - cbn [length]. f_equal. apply IH; [assumption |].
    apply elem_of_cons in Hin as [-> | Hin]; [congruence | assumption].
  - assert (k' = k) as -> by (destruct (decide (k' = k)); [assumption | contradiction]).
    cbn [length]. f_equal.
    clear IH Hin Hnd Heq. induction ks as [|k'' ks IH]; [reflexivity |].
    apply not_elem_of_cons in Hk' as [Hne Hk']. rewrite filter_cons.
    rewrite decide_True by congruence. cbn [length]. now rewrite IH.
Qed.

(** The loop of [evictOldest] after some entries: the time it holds is
    a lower bound of what it saw, and the key is the starting key or the
    key of an entry with that time. *)
Lemma oldest_fold_from (m : list (string * Entry)) (k0 : string) (t0 : nat) :
  exists k t,
    fold_left oldest_step m (k0, Some t0) = (k, Some t)
    /\ t <= t0
    /\ (forall p, p ∈ m -> t <= lastUsed (snd p))
    /\ ((k = k0 /\ t = t0) \/ exists e, (k, e) ∈ m /\ lastUsed e = t).
Proof.
  revert k0 t0. induction m as [|[k1 e1] m IH]; intros k0 t0.
  - exists k0, t0. cbn. split; [reflexivity |]. split; [lia |].
    split; [intros p Hp; now apply elem_of_nil in Hp | now left].
  - cbn [fold_left]. unfold oldest_step at 2. cbn [fst snd older_than].
    destruct (Nat.ltb_spec (lastUsed e1) t0) as [Hlt | Hge].
    + destruct (IH k1 (lastUsed e1)) as (k & t & Hf & Hle & Hall & Hk).
      exists k, t. split; [exact Hf |]. split; [lia |]. split.
      * intros p Hp. apply elem_of_cons in Hp as [-> | Hp]; [cbn; lia | now apply Hall].
      * right. destruct Hk as [[-> ->] | (e & He & Ht)].
        -- exists e1. split; [apply list_elem_of_here | reflexivity].
        -- exists e. split; [now apply list_elem_of_further | exact Ht].
    + destruct (IH k0 t0) as (k & t & Hf & Hle & Hall & Hk).
      exists k, t. split; [exact Hf |]. split; [lia |]. split.
      * intros p Hp. apply elem_of_cons in Hp as [-> | Hp]; [cbn; lia | now apply Hall].
      * destruct Hk as [[-> ->] | (e & He & Ht)]; [now left | right].
        exists e. split; [now apply list_elem_of_further | exact Ht].
Qed.

(** On a map that is not empty the loop ends at an entry that no entry
    is older than. *)
Lemma oldest_fold (m : list (string * Entry)) :
  m <> [] ->
  exists k e,
    fst (fold_left oldest_step m ("", None)) = k
    /\ (k, e) ∈ m
    /\ forall p, p ∈ m -> lastUsed e <= lastUsed (snd p).
Proof.
  destruct m as [|[k1 e1] m]; [congruence |]. intros _.
  cbn [fold_left]. unfold oldest_step at 2. cbn [fst snd older_than].
  destruct (oldest_fold_from m k1 (lastUsed e1)) as (k & t & Hf & Hle & Hall & Hk).
  rewrite Hf. cbn [fst].
  destruct Hk as [[-> ->] | (e & He & Ht)].
  - exists k1, e1. split; [reflexivity |]. split; [apply list_elem_of_here |].
    intros p Hp. apply elem_of_cons in Hp as [-> | Hp]; [cbn; lia | now apply Hall].
  - exists k, e. split; [reflexivity |]. split; [now apply list_elem_of_further |].
    intros p Hp. rewrite Ht.
    apply elem_of_cons in Hp as [-> | Hp]; [cbn; lia | now apply Hall].
Qed.

End LRUFacts.

Lemma evictOldest_victim (m : list (string * LRU.Entry)) :
  m <> [] ->
  "" ∉ m.*1 ->
  exists k e,
    (k, e) ∈ m
    /\ (forall p, p ∈ m -> LRU.lastUsed e <= LRU.lastUsed (snd p))
    /\ LRU.evictOldest m = LRU.map_delete k m.
Proof.
  intros Hne Hkeys.
  destruct (oldest_fold m Hne) as (k & e & Hk & Hin & Hmin).
  exists k, e. split; [exact Hin |]. split; [exact Hmin |].
  unfold LRU.evictOldest. rewrite Hk.
  rewrite truthy_string_nonempty; [reflexivity |].
  intros ->. apply Hkeys. apply list_elem_of_fmap. exists ("", e). auto.
Qed.

(** The victim of an eviction is a least recently used entry.  On a map
    that is not empty and does not hold the empty cache key,
    [evictOldest] deletes one key, and no entry of the map was used
    earlier than the entry of that key. *)
Theorem evictOldest_deletes_a_least_recently_used_entry (m : list (string * LRU.Entry)) :
  m <> [] ->
  "" ∉ m.*1 ->
  exists k e,
    (k, e) ∈ m
    /\ (forall p, p ∈ m -> LRU.lastUsed e <= LRU.lastUsed (snd p))
    /\ LRU.evictOldest m = LRU.map_delete k m.
Proof. exact (evictOldest_victim m). Qed.

Lemma evictOldest_deletes_a_least_recently_used_entry_example :
  let m := [("a", {| LRU.signal := Handles.Build_SignalHandle 0 "k" []; LRU.lastUsed := 5 |});
            ("b", {| LRU.signal := Handles.Build_SignalHandle 1 "k" []; LRU.lastUsed := 2 |});
            ("c", {| LRU.signal := Handles.Build_SignalHandle 2 "k" []; LRU.lastUsed := 9 |})] in
  (m <> [] /\ "" ∉ m.*1)
  /\ exists k e,
       (k, e) ∈ m
       /\ (forall p, p ∈ m -> LRU.lastUsed e <= LRU.lastUsed (snd p))
       /\ LRU.evictOldest m = LRU.map_delete k m.
Proof.
  cbv zeta.
  assert (Hne : [("a", {| LRU.signal := Handles.Build_SignalHandle 0 "k" []; LRU.lastUsed := 5 |});
                 ("b", {| LRU.signal := Handles.Build_SignalHandle 1 "k" []; LRU.lastUsed := 2 |});
                 ("c", {| LRU.signal := Handles.Build_SignalHandle 2 "k" []; LRU.lastUsed := 9 |})] <> []) by discriminate.
  assert (Hkeys : "" ∉ [("a", {| LRU.signal := Handles.Build_SignalHandle 0 "k" []; LRU.lastUsed := 5 |});
                        ("b", {| LRU.signal := Handles.Build_SignalHandle 1 "k" []; LRU.lastUsed := 2 |});
                        ("c", {| LRU.signal := Handles.Build_SignalHandle 2 "k" []; LRU.lastUsed := 9 |})].*1).
  { cbn [fmap list_fmap fst]. intros Hin.
    repeat (apply elem_of_cons in Hin as [Hin | Hin]; [discriminate |]).
    now apply elem_of_nil in Hin. }
  split; [split; [exact Hne | exact Hkeys] |].
  exact (evictOldest_deletes_a_least_recently_used_entry _ Hne Hkeys).
Defined.

Section LRUBound.

Import Handles LRU.

Variable JSON_stringify : list JsValue -> string.
Variable maxSize : nat.

Lemma length_keys (m : list (string * Entry)) : length m.*1 = length m.
Proof. apply length_fmap. Qed.

Lemma getCachedSignal_within_bound (key : string) (values : list JsValue) (now : nat)
      (c : LRUCache) :
  1 <= maxSize ->
  getCacheKey JSON_stringify key values <> "" ->
  within_bound maxSize c ->
  within_bound maxSize (snd (getCachedSignal JSON_stringify maxSize key values now c)).
Proof.
  intros Hmax Hkey (Hnd & Hempty & Hlen). unfold getCachedSignal. cbv zeta.
  set (ck := getCacheKey JSON_stringify key values) in *.
  destruct (map_get ck (cache c)) as [cached|] eqn:Hget.
  - assert (Hin : ck ∈ (cache c).*1).
    { destruct (decide (ck ∈ (cache c).*1)) as [H|H]; [exact H |].
      apply map_get_None_keys in H. congruence. }
    unfold within_bound. cbn [snd cache].
    rewrite <- length_keys, (map_set_keys_present _ _ _ Hin), length_keys. auto.
  - apply map_get_None_keys in Hget. unfold within_bound. cbn [snd cache].
    destruct (Nat.leb_spec maxSize (length (cache c))) as [Hfull | Hroom].
    + assert (Hne : cache c <> []) by (destruct (cache c); [cbn in Hfull; lia | discriminate]).
      destruct (evictOldest_victim (cache c) Hne Hempty)
        as (k & e & Hin & _ & ->).
      assert (Hk : k ∈ (cache c).*1) by (apply list_elem_of_fmap; exists (k, e); auto).
      assert (Hck : ck ∉ (map_delete k (cache c)).*1).
      { rewrite map_delete_keys. intros H. apply list_elem_of_filter in H as [_ H]. auto. }
      rewrite (map_set_absent _ _ _ Hck), fmap_app, length_app. cbn [fmap list_fmap fst length].
      rewrite <- (length_keys (map_delete k (cache c))), map_delete_keys.
      pose proof (filter_out_length k _ Hnd Hk) as Hcount. rewrite length_keys in Hcount.
      split; [|split].
      * apply NoDup_app. split; [now apply NoDup_filter |]. split; [|apply NoDup_singleton].
        intros x Hx Hx'. apply list_elem_of_singleton in Hx'. subst x.
        apply list_elem_of_filter in Hx as [_ Hx]. auto.
      * intros H. apply elem_of_app in H as [H | H].
        -- apply list_elem_of_filter in H as [_ H]. auto.
        -- apply list_elem_of_singleton in H. congruence.
      * lia.
    + rewrite (map_set_absent _ _ _ Hget), fmap_app, length_app.
      cbn [fmap list_fmap fst length]. split; [|split].
      * apply NoDup_app. split; [assumption |]. split; [|apply NoDup_singleton].
        intros x Hx Hx'. apply list_elem_of_singleton in Hx'. now subst x.
      * intros H. apply elem_of_app in H as [H | H]; [auto |].
        apply list_elem_of_singleton in H. congruence.
      * lia.
Qed.

End LRUBound.

(** The cache stays within its size: with [maxSize] at least 1, and as
    long as no call asks for the empty translation key without
    arguments, the cache never holds more than [maxSize] handles,
    whatever the calls and the clock are. *)
Theorem lru_cache_stays_within_maxSize
        (JSON_stringify : list JsValue -> string) (maxSize : nat)
        (calls : list (string * list JsValue * nat)) :
  1 <= maxSize ->
  (forall key values now,
      (key, values, now) ∈ calls -> LRU.getCacheKey JSON_stringify key values <> "") ->
  LRU.getCacheSize (LRU.run_calls JSON_stringify maxSize calls LRU.empty) <= maxSize.
Proof.
  intros Hmax Hkeys.
  assert (H : LRU.within_bound maxSize (LRU.run_calls JSON_stringify maxSize calls LRU.empty)).
  { assert (H0 : LRU.within_bound maxSize LRU.empty).
    { unfold LRU.within_bound. cbn. split; [apply NoDup_nil_2 |].
      split; [apply not_elem_of_nil | lia]. }
    revert H0. generalize LRU.empty.
    induction calls as [|[[key values] now] calls IH]; intros c Hc; [exact Hc |].
    cbn [LRU.run_calls fold_left]. apply IH.
    - intros k v n Hin. apply (Hkeys k v n). now apply list_elem_of_further.
    - apply getCachedSignal_within_bound; [assumption | | assumption].
      apply (Hkeys key values now), list_elem_of_here. }
  apply H.
Qed.

Lemma lru_cache_stays_within_maxSize_two :
  LRU.getCacheSize
    (LRU.run_calls Scenario.stringify 2
       [("a", [], 10); ("b", [], 20); ("a", [], 30); ("c", [JsInt 1], 40); ("d", [], 50)]
       LRU.empty)
  <= 2.
Proof.
  apply (lru_cache_stays_within_maxSize Scenario.stringify 2); [lia |].
  intros key values now Hin.
  repeat (apply elem_of_cons in Hin as [Hin | Hin];
          [injection Hin as -> -> ->; vm_compute; discriminate |]).
  now apply elem_of_nil in Hin.
Defined.

(** The empty cache key is never evicted and blocks the eviction.  When
    the entry under the empty cache key is older than every other entry,
    [evictOldest] deletes nothing, and a miss on a full cache makes the
    cache one entry larger. *)
Theorem oldest_empty_key_blocks_eviction
        (JSON_stringify : list JsValue -> string) (maxSize : nat)
        (c : LRU.LRUCache) (e0 : LRU.Entry)
        (key : string) (values : list JsValue) (now : nat) :
  ("", e0) ∈ LRU.cache c ->
  (forall p, p ∈ LRU.cache c -> fst p <> "" -> LRU.lastUsed e0 < LRU.lastUsed (snd p)) ->
  LRU.map_get (LRU.getCacheKey JSON_stringify key values) (LRU.cache c) = None ->
  LRU.evictOldest (LRU.cache c) = LRU.cache c
  /\ LRU.getCacheSize (snd (LRU.getCachedSignal JSON_stringify maxSize key values now c))
     = S (LRU.getCacheSize c).
Proof.
  intros Hin Hold Hmiss.
  assert (Hevict : LRU.evictOldest (LRU.cache c) = LRU.cache c).
  { assert (Hne : LRU.cache c <> []) by (intros H; rewrite H in Hin; now apply elem_of_nil in Hin).
    destruct (oldest_fold (LRU.cache c) Hne) as (k & e & Hk & Hke & Hmin).
    unfold LRU.evictOldest. rewrite Hk.
    destruct (decide (k = "")) as [->|Hk0]; [reflexivity |].
    pose proof (Hold (k, e) Hke Hk0) as Hlt. pose proof (Hmin ("", e0) Hin) as Hle.
    cbn [snd] in *. lia. }
  split; [exact Hevict |].
  unfold LRU.getCachedSignal, LRU.getCacheSize. cbv zeta. rewrite Hmiss, Hevict.
  cbn [snd LRU.cache].
  apply map_get_None_keys in Hmiss.
  destruct (Nat.leb maxSize (length (LRU.cache c)));
    rewrite (map_set_absent _ _ _ Hmiss), length_app; cbn [length]; lia.
Qed.

Lemma oldest_empty_key_blocks_eviction_example :
  let c := LRU.run_calls Scenario.stringify 2 [("", [], 10); ("b", [], 20)] LRU.empty in
  LRU.getCacheSize c = 2
  /\ LRU.getCacheSize (snd (LRU.getCachedSignal Scenario.stringify 2 "c" [] 30 c)) = 3.
Proof.
  cbv zeta. split; [reflexivity |].
  refine (proj2 (oldest_empty_key_blocks_eviction
                   Scenario.stringify 2
                   (LRU.run_calls Scenario.stringify 2 [("", [], 10); ("b", [], 20)] LRU.empty)
                   {| LRU.signal := {| Handles.signal_id := 0; Handles.signal_key := "";
                                       Handles.signal_values := [] |};
                      LRU.lastUsed := 10 |}
                   "c" [] 30 _ _ _)).
  - vm_compute. apply list_elem_of_here.
  - intros p Hp Hne. vm_compute in Hp.
    apply elem_of_cons in Hp as [-> | Hp]; [now destruct Hne |].
    apply elem_of_cons in Hp as [-> | Hp]; [cbn; lia | now apply elem_of_nil in Hp].
  - reflexivity.
Defined.

(** A hit returns the cached handle: right after a call, a second call
    with the same key and arguments returns the handle of the first,
    builds nothing and leaves the size of the cache as it is, whatever
    the clock shows. *)
Theorem lru_hit_returns_the_cached_handle
        (JSON_stringify : list JsValue -> string) (maxSize : nat)
        (key : string) (values : list JsValue) (now now' : nat) (c : LRU.LRUCache) :
  let first := LRU.getCachedSignal JSON_stringify maxSize key values now c in
  let second := LRU.getCachedSignal JSON_stringify maxSize key values now' (snd first) in
  fst second = fst first
  /\ LRU.built (snd second) = LRU.built (snd first)
  /\ LRU.getCacheSize (snd second) = LRU.getCacheSize (snd first).
Proof.
  cbv zeta.
  assert (Hcached : LRU.map_get (LRU.getCacheKey JSON_stringify key values)
                      (LRU.cache (snd (LRU.getCachedSignal JSON_stringify maxSize
                                         key values now c)))
                    = Some {| LRU.signal := fst (LRU.getCachedSignal JSON_stringify maxSize
                                                   key values now c);
                              LRU.lastUsed := now |}).
  { unfold LRU.getCachedSignal. cbv zeta.
    destruct (LRU.map_get _ (LRU.cache c)); cbn [fst snd LRU.cache];
      apply map_get_set_same. }
  destruct (LRU.getCachedSignal JSON_stringify maxSize key values now c) as [h c1].
  cbn [fst snd] in *. unfold LRU.getCachedSignal at 1 2 3. cbv zeta. rewrite Hcached.
  cbn [fst snd LRU.signal LRU.built LRU.cache]. split; [reflexivity |].
  split; [reflexivity |]. unfold LRU.getCacheSize. cbn [LRU.cache].
  rewrite <- !length_keys. rewrite map_set_keys_present; [reflexivity |].
  destruct (decide (LRU.getCacheKey JSON_stringify key values ∈ (LRU.cache c1).*1))
    as [H|H]; [exact H |].
  apply map_get_None_keys in H. congruence.
Qed.

(* ===================================================================== *)
(** * One instance *)
(* ===================================================================== *)

Section SingletonFacts.

Import Registry RegistryRuns.

Lemma initializeI18nWithCustom_ok (cls : ImplementationClass) (config : I18nConfig)
      (reg : ClassRegistry) :
  class_registry_ok reg ->
  class_registry_ok (snd (initializeI18nWithCustom cls config reg))
  /\ forall instance,
      fst (initializeI18nWithCustom cls config reg) = Returns instance ->
      instance_id instance = 0.
Proof.
  unfold class_registry_ok, initializeI18nWithCustom.
  destruct (translateInstance reg) as [existing|] eqn:Hinst.
  - intros (Hinit & Hn & Hid). rewrite Hinit.
    destruct (instanceof existing cls); cbn [fst snd translateInstance isInitialized
                                             instances_constructed]; rewrite ?Hinst.
    + split; [auto |]. now intros instance [= <-].
    + split; [auto |]. discriminate.
  - intros (Hinit & Hn). rewrite Hinit. unfold construct.
    destruct (injector config); [|cbn; rewrite Hinst; split; [auto | discriminate]].
    destruct (constructor_body cls config);
      [cbn; rewrite Hinst; split; [auto | discriminate] |].
    cbn. rewrite Hn. split; [auto |]. now intros instance [= <-].
Qed.

Lemma run_class_registry_ok (calls : list (ImplementationClass * I18nConfig))
      (reg : ClassRegistry) :
  class_registry_ok reg -> class_registry_ok (run_class_registry calls reg).
Proof.
  revert reg. induction calls as [|[cls config] calls IH]; intros reg H; [exact H |].
  cbn [run_class_registry fold_left]. apply IH.
  apply (initializeI18nWithCustom_ok cls config reg H).
Qed.

Lemma initializeI18n_ok (configure : I18nLanguageConfigure) (g : GlobalManager) :
  global_manager_ok g ->
  global_manager_ok (snd (initializeI18n configure g))
  /\ forall instance,
      fst (initializeI18n configure g) = Returns (Some instance) ->
      store_id instance = 0.
Proof.
  unfold global_manager_ok, initializeI18n.
  destruct (configure_injector configure) as [inj|] eqn:Hinj;
    [|cbn; split; [auto | discriminate]].
  destruct (instanceI18nGlobal g) as [existing|] eqn:Hinst.
  - intros (Hinit & Hn & Hid). rewrite Hinit. cbn. rewrite ?Hinst.
    split; [auto |]. now intros instance [= <-].
  - intros (Hinit & Hn). rewrite Hinit. unfold initInstanceI18n. rewrite Hinj.
    destruct (_ && _); cbn.
    + rewrite Hn. split; [auto |]. now intros instance [= <-].
    + split; [auto | discriminate].
Qed.

Lemma run_global_manager_ok (calls : list I18nLanguageConfigure) (g : GlobalManager) :
  global_manager_ok g -> global_manager_ok (run_global_manager calls g).
Proof.
  revert g. induction calls as [|configure calls IH]; intros g H; [exact H |].
  cbn [run_global_manager fold_left]. apply IH.
  apply (initializeI18n_ok configure g H).
Qed.

End SingletonFacts.

(** One instance for each process: through any sequence of calls of
    initialize, with any classes and configurations, at most one
    instance is ever constructed, and every call that returns an
    instance returns the first one constructed.  This holds for the class
    registry and for the injector registry. *)
Theorem at_most_one_instance_is_constructed :
  (forall (calls : list (Registry.ImplementationClass * Registry.I18nConfig)) cls config,
      let reg := RegistryRuns.run_class_registry calls Registry.class_registry_start in
      Registry.instances_constructed reg <= 1
      /\ forall instance,
          fst (Registry.initializeI18nWithCustom cls config reg) = Registry.Returns instance ->
          Registry.instance_id instance = 0)
  /\ (forall (calls : list Registry.I18nLanguageConfigure) configure,
        let g := RegistryRuns.run_global_manager calls Registry.global_manager_start in
        Registry.stores_constructed g <= 1
        /\ forall instance,
            fst (Registry.initializeI18n configure g) = Registry.Returns (Some instance) ->
            Registry.store_id instance = 0).
Proof.
  split.
  - intros calls cls config reg.
    assert (Hok : RegistryRuns.class_registry_ok reg)
      by (apply run_class_registry_ok; cbn; auto).
    split.
    + unfold RegistryRuns.class_registry_ok in Hok.
      destruct (Registry.translateInstance reg); destruct Hok as (? & ?); try tauto; lia.
    + apply (initializeI18nWithCustom_ok cls config reg Hok).
  - intros calls configure g.
    assert (Hok : RegistryRuns.global_manager_ok g)
      by (apply run_global_manager_ok; cbn; auto).
    split.
    + unfold RegistryRuns.global_manager_ok in Hok.
      destruct (Registry.instanceI18nGlobal g); destruct Hok as (? & ?); try tauto; lia.
    + apply (initializeI18n_ok configure g Hok).
Qed.

Lemma at_most_one_instance_is_constructed_example :
  let reg := RegistryRuns.run_class_registry
               [(Scenario.DefaultImplementation, Scenario.config_en);
                (Scenario.DefaultImplementation, Scenario.config_en)]
               Registry.class_registry_start in
  Registry.instances_constructed reg = 1
  /\ exists instance,
       fst (Registry.initializeI18nWithCustom
              Scenario.DefaultImplementation Scenario.config_en reg)
       = Registry.Returns instance
       /\ Registry.instance_id instance = 0.
Proof.
  cbv zeta. split; [reflexivity |].
  eexists. split; [reflexivity |].
  exact (proj2 (proj1 at_most_one_instance_is_constructed
                  [(Scenario.DefaultImplementation, Scenario.config_en);
                   (Scenario.DefaultImplementation, Scenario.config_en)]
                  Scenario.DefaultImplementation Scenario.config_en)
               _ eq_refl).
Defined.

(** Reset forgets the instance.  After [resetI18n] the accessor throws,
    [safeGet] answers [null], and an initialize that succeeds constructs
    a new instance (the one before is not returned again). *)
Theorem reset_forgets_the_instance
        (reg : Registry.ClassRegistry) (cls : Registry.ImplementationClass)
        (config : Registry.I18nConfig) (instance : Registry.Instance) :
  fst (Registry.initializeI18nWithCustom cls config (Registry.resetI18n reg))
  = Registry.Returns instance ->
  Registry.useI18nTranslate (Registry.resetI18n reg)
  = Registry.Throws "[I18n] Must call initializeI18n() first"
  /\ RegistryRuns.safeGet (Registry.resetI18n reg) = None
  /\ Registry.instance_id instance = Registry.instances_constructed reg
  /\ Registry.instance_class instance = cls
  /\ Registry.instances_constructed
       (snd (Registry.initializeI18nWithCustom cls config (Registry.resetI18n reg)))
     = S (Registry.instances_constructed reg).
Proof.
  unfold Registry.initializeI18nWithCustom, Registry.resetI18n.
  cbn [Registry.isInitialized Registry.instances_constructed].
  unfold Registry.construct.
  destruct (Registry.injector config); [|discriminate].
  destruct (Registry.constructor_body cls config); [discriminate |].
  cbn. intros [= <-]. auto.
Qed.

Lemma reset_forgets_the_instance_example :
  let first := Registry.initializeI18nWithCustom
                 Scenario.DefaultImplementation Scenario.config_en
                 Registry.class_registry_start in
  let second := Registry.initializeI18nWithCustom
                  Scenario.CustomImplementation Scenario.config_en
                  (Registry.resetI18n (snd first)) in
  exists i1 i2,
    fst first = Registry.Returns i1 /\ fst second = Registry.Returns i2
    /\ Registry.instance_id i1 = 0 /\ Registry.instance_id i2 = 1.
Proof.
  cbv zeta. eexists _, _. split; [reflexivity |]. split; [reflexivity |].
  split; [reflexivity |].
  exact (proj1 (proj2 (proj2
           (reset_forgets_the_instance
              (snd (Registry.initializeI18nWithCustom
                      Scenario.DefaultImplementation Scenario.config_en
                      Registry.class_registry_start))
              Scenario.CustomImplementation Scenario.config_en _ eq_refl)))).
Defined.

Section HookFacts.

Import Registry Hook.

Variable provides : nat -> bool.

Lemma getInstanceI18nTranslate_keeps (abstractClass key : nat) (config : option PartialConfig)
      (s : HookStore) (instance : Instance) :
  storeI18nTranslate s !! key = Some instance ->
  storeI18nTranslate (snd (getInstanceI18nTranslate provides abstractClass config s)) !! key
  = Some instance.
Proof.
  intros H. unfold getInstanceI18nTranslate.
  destruct (storeI18nTranslate s !! abstractClass) eqn:E; [exact H |].
  destruct (construct _ _ _); [|exact H].
  cbn. rewrite lookup_insert_ne; [exact H | congruence].
Qed.

Lemma run_hook_keeps (calls : list (nat * option PartialConfig)) (key : nat)
      (s : HookStore) (instance : Instance) :
  storeI18nTranslate s !! key = Some instance ->
  storeI18nTranslate (run_hook provides calls s) !! key = Some instance.
Proof.
  revert s. induction calls as [|[abstractClass config] calls IH]; intros s H; [exact H |].
  cbn [run_hook fold_left]. apply IH. now apply getInstanceI18nTranslate_keeps.
Qed.

End HookFacts.

(** One instance for each key of [useI18nTranslate(abstractClass,
    config)].  Once a call for a key returned an instance, every later
    call for that key, after any other calls and with any configuration,
    returns that instance and constructs nothing; the instance is an
    [I18nTranslateImplement], whatever function was passed as the key. *)
Theorem hook_keeps_one_instance_for_each_key
        (provides : nat -> bool) (abstractClass : nat)
        (config config' : option Hook.PartialConfig) (s : Hook.HookStore)
        (instance : Registry.Instance)
        (calls : list (nat * option Hook.PartialConfig)) :
  fst (Hook.getInstanceI18nTranslate provides abstractClass config s)
  = Registry.Returns instance ->
  let s1 := Hook.run_hook provides calls
              (snd (Hook.getInstanceI18nTranslate provides abstractClass config s)) in
  Hook.getInstanceI18nTranslate provides abstractClass config' s1
  = (Registry.Returns instance, s1)
  /\ (Hook.storeI18nTranslate s !! abstractClass = None ->
      Registry.instance_class instance = Hook.I18nTranslateImplement_class provides).
Proof.
  intros H. cbv zeta.
  assert (Hstored : Hook.storeI18nTranslate
                      (snd (Hook.getInstanceI18nTranslate provides abstractClass config s))
                      !! abstractClass = Some instance).
  { revert H. unfold Hook.getInstanceI18nTranslate.
    destruct (Hook.storeI18nTranslate s !! abstractClass) eqn:E.
    - cbn. now intros [= <-].
    - destruct (Registry.construct _ _ _); [|discriminate].
      cbn. intros [= <-]. apply lookup_insert_eq. }
  split.
  - pose proof (run_hook_keeps provides calls abstractClass _ instance Hstored) as Hlater.
    unfold Hook.getInstanceI18nTranslate at 1. now rewrite Hlater.
  - intros Hnew. revert H. unfold Hook.getInstanceI18nTranslate. rewrite Hnew.
    unfold Registry.construct.
    destruct (Registry.injector _); [|discriminate].
    destruct (Registry.constructor_body _ _); [discriminate |].
    cbn. now intros [= <-].
Qed.

Lemma hook_keeps_one_instance_for_each_key_example :
  let provides := fun _ : nat => true in
  let config := Some {| Hook.partial_injector := Some 0; Hook.partial_assetsUrl := None;
                        Hook.partial_defaultLanguage := None;
                        Hook.partial_fallbackLanguage := None;
                        Hook.partial_languageSupported := None |} in
  let first := Hook.getInstanceI18nTranslate provides 5 config Hook.hook_start in
  exists instance,
    fst first = Registry.Returns instance
    /\ fst (Hook.getInstanceI18nTranslate provides 5 None
              (Hook.run_hook provides [(6, config); (5, None)] (snd first)))
       = Registry.Returns instance.
Proof.
  cbv zeta.
  set (config := Some {| Hook.partial_injector := Some 0; Hook.partial_assetsUrl := None;
                         Hook.partial_defaultLanguage := None;
                         Hook.partial_fallbackLanguage := None;
                         Hook.partial_languageSupported := None |}).
  exists {| Registry.instance_id := 0;
            Registry.instance_class := Hook.I18nTranslateImplement_class (fun _ => true);
            Registry.instance_config := Hook.mergeConfig config |}.
  split; [reflexivity |].
  exact (f_equal fst
           (proj1 (hook_keeps_one_instance_for_each_key
                     (fun _ => true) 5 config None Hook.hook_start
                     {| Registry.instance_id := 0;
                        Registry.instance_class :=
                          Hook.I18nTranslateImplement_class (fun _ => true);
                        Registry.instance_config := Hook.mergeConfig config |}
                     [(6, config); (5, None)] eq_refl))).
Defined.
